(** * Data term of the 2D level-set fusion optimiser

    A shallow embedding of [nonrigid_optimization/data_term.cpp]:
    [data_term_at_location] and its Python adapter
    [py_data_term_at_location].

    - [float] is IEEE 754 binary32, modelled with the Standard Library's
      executable specification [SpecFloat] at precision 24 and maximal
      exponent 128, every operation rounding to nearest, ties to even,
      with gradual underflow.  Each C++ [float] operation is one rounded
      binary32 operation (FLT_EVAL_METHOD 0: no excess precision; the
      kernel holds no multiply-add that could be contracted).  A NaN
      carries no payload.
    - Memory is a finite map from addresses to cells.  An
      [Eigen::MatrixXf] is a descriptor (rows, columns, address of the
      first coefficient) of column-major storage; a [float&] is the
      address of a cell.  Fields and output slots live in one address
      space, so that aliasing can be expressed.
    - Undefined behaviour (a coefficient access out of range, a read of
      an uninitialised or unmapped cell, a write through a dangling
      reference) is the failure [None] of the state-and-error monad.

    The file first gives the embedding, then a small theory of the
    rounding of [SpecFloat] (digit counts, the shape of a rounded
    result, signs, exact scaling by powers of two), then the
    properties of the kernel and of the adapter. *)

From Stdlib Require Import SpecFloat.
From stdpp Require Import gmap.

Local Open Scope Z_scope.

(** ** binary32 arithmetic *)

(** A well-formed finite number below [2^k] in magnitude, or a zero, at
    precision [prec] and maximal exponent [emax]. *)
Definition finite_below (prec emax k : Z) (x : spec_float) : Prop :=
  match x with
  | S754_zero _ => True
  | S754_finite _ m e => bounded prec emax m e = true ∧ Zdigits2 (Z.pos m) + e ≤ k
  | _ => False
  end.

Module F32.

Definition prec : Z := 24.
Definition emax : Z := 128.

Definition sub : spec_float → spec_float → spec_float := SFsub prec emax.
Definition mul : spec_float → spec_float → spec_float := SFmul prec emax.
Definition opp : spec_float → spec_float := SFopp.
Definition eqb : spec_float → spec_float → bool := SFeqb.

(** The binary32 literal nearest to [m * 2^e]. *)
Definition lit (m e : Z) : spec_float := binary_normalize prec emax m e false.

(** A well-formed binary32 datum: the mantissa is canonical for its
    exponent and the exponent is in range. *)
Definition wf (x : spec_float) : Prop := valid_binary prec emax x = true.

Definition is_finite (x : spec_float) : bool :=
  match x with
  | S754_zero _ | S754_finite _ _ _ => true
  | S754_infinity _ | S754_nan => false
  end.

Definition is_zero (x : spec_float) : bool :=
  match x with
  | S754_zero _ => true
  | _ => false
  end.

(** The binary magnitude of a finite non-zero number [x]: the least [k]
    with [|x| < 2^k].  Any other datum gets [emin], which lies below the
    magnitude of every finite non-zero number. *)
Definition mag (x : spec_float) : Z :=
  match x with
  | S754_finite _ m e => Zdigits2 (Z.pos m) + e
  | _ => emin prec emax
  end.

(** Numerical equality of two results: the same datum, or two zeros
    (of any signs).  A NaN is only the same as a NaN. *)
Definition same_number (x y : spec_float) : Prop :=
  x = y ∨ (is_zero x = true ∧ is_zero y = true).

Definition finite_below : Z → spec_float → Prop := finite_below prec emax.

(** The rounding of the product of two finite non-zero numbers keeps
    clear of the one place where rounding and doubling do not commute:
    the exact product is at least [2^-126] in magnitude, the least
    normal number, or it is a binary32 number already and the rounding
    returns it.  A product with a zero, an infinity or a NaN is not
    rounded. *)
Definition product_safe (x y : spec_float) : bool :=
  match x, y with
  | S754_finite _ mx ex, S754_finite _ my ey =>
      (-125 <=? Zdigits2 (Z.pos (mx * my)) + (ex + ey))
      || match mul x y with
         | S754_finite _ m e =>
             (ex + ey <=? e) && (Z.pos (mx * my) =? Z.pos m * 2 ^ (e - (ex + ey)))
         | _ => false
         end
  | _, _ => true
  end.

(** Doubling the gradient sample [g] doubles [d * g * 10]: [g] is a
    zero, an infinity or a NaN; or [g] is a binary32 number and [d] is
    an infinity or a NaN; or [g] is below [2^127] in magnitude, so that
    its double is finite, and [d] is a zero; or [g] is below [2^127],
    [d] is a binary32 number, and both products, [d * g] and its scaling
    by ten, are safe from inexact rounding below the normal range. *)
Definition doubling_safe (d g : spec_float) : bool :=
  match g with
  | S754_finite _ _ _ =>
      valid_binary prec emax g
      && match d with
         | S754_zero _ => mag g <=? 127
         | S754_finite _ _ _ =>
             valid_binary prec emax d && (mag g <=? 127)
             && product_safe d g
             && product_safe (mul d g) (lit 10 0)
         | _ => true
         end
  | _ => true
  end.

End F32.

(** ** Memory *)

Inductive cell : Type :=
  | Uninit
  | Val (v : spec_float).

(** Addresses count [float] objects. *)
Abbreviation addr := Z (only parsing).

(** The state-and-error monad of the embedding. *)
Definition M (A : Type) : Type := gmap Z cell → option (A * gmap Z cell).

Global Instance M_ret : MRet M := λ A a h, Some (a, h).
Global Instance M_bind : MBind M := λ A B f c h,
  match c h with
  | Some (a, h') => f a h'
  | None => None
  end.

(** Reading a [float] object: the cell must hold a value. *)
Definition load (a : addr) : M spec_float := λ h,
  match h !! a with
  | Some (Val v) => Some (v, h)
  | _ => None
  end.

(** Assigning through a [float&]: the referenced object must exist. *)
Definition store (a : addr) (v : spec_float) : M unit := λ h,
  match h !! a with
  | Some _ => Some ((), <[a := Val v]> h)
  | None => None
  end.

(** Declaring an uninitialised local [float]: a cell at an unused address. *)
Definition alloca : M addr := λ h,
  let a := fresh (dom h) in Some (a, <[a := Uninit]> h).

(** End of the lifetime of a local. *)
Definition release (a : addr) : M unit := λ h, Some ((), delete a h).

(** ** Eigen matrices *)

(** An [Eigen::MatrixXf] object: a dense matrix of [float] of dynamic
    size in Eigen's default, column-major storage order, given by its
    numbers of rows and columns and the address of its first
    coefficient. *)
Record MatrixXf : Type := {
  m_rows : Z;
  m_cols : Z;
  m_data : addr
}.

(** The index range of [operator()]; the C++ [int] coordinates are
    integers here, and a coordinate outside the range is undefined
    behaviour whatever its size. *)
Definition in_bounds (A : MatrixXf) (row col : Z) : bool :=
  (0 <=? row) && (row <? m_rows A) && (0 <=? col) && (col <? m_cols A).

(** Address of coefficient [(row, col)] in column-major storage. *)
Definition coeff_addr (A : MatrixXf) (row col : Z) : addr :=
  m_data A + (row + col * m_rows A).

(** [A(row, col)] on a [const MatrixXf&]. *)
Definition coeff (A : MatrixXf) (row col : Z) : M spec_float := λ h,
  if in_bounds A row col then load (coeff_addr A row col) h else None.

(** The coefficient at the location [(x, y)], row [y] and column [x], as
    a plain observation of a memory: [Some v] exactly when the location
    is in bounds and the cell holds the value [v]. *)
Definition sample (h : gmap Z cell) (A : MatrixXf) (x y : Z) : option spec_float :=
  fst <$> coeff A y x h.

(** ** The data term *)

(** The four fields are [const MatrixXf&] and are only read; the three
    outputs are [float&], addresses of cells that are only written. *)
Definition data_term_at_location
    (warped_live_field canonical_field : MatrixXf) (x y : Z)
    (live_gradient_x_field live_gradient_y_field : MatrixXf)
    (data_gradient_x data_gradient_y local_energy_contribution : addr) : M unit :=
  live_sdf ← coeff warped_live_field y x;
  canonical_sdf ← coeff canonical_field y x;
  let difference := F32.sub live_sdf canonical_sdf in
  let scaling_factor := F32.lit 10 0 in
  gradient_x ← coeff live_gradient_x_field y x;
  gradient_y ← coeff live_gradient_y_field y x;
  store data_gradient_x
        (F32.mul (F32.mul difference gradient_x) scaling_factor);;
  store data_gradient_y
        (F32.mul (F32.mul difference gradient_y) scaling_factor);;
  store local_energy_contribution
        (F32.mul (F32.mul (F32.lit 1 (-1)) difference) difference).

(** A [RowVector2f] local: two coefficients, uninitialised at declaration. *)
Definition RowVector2f : Type := list cell.
Definition RowVector2f_decl : RowVector2f := [Uninit; Uninit].

(** Conversion of the vector to a Python object ([bp::object]) reads
    every coefficient. *)
Definition to_python (v : RowVector2f) : M (list spec_float) := λ h,
  match v with
  | [Val a; Val b] => Some ([a; b], h)
  | _ => None
  end.

(** The Python adapter.  The four matrices are passed by value: the
    descriptors name the callee's own copies.  The three [float] locals
    are declared uninitialised, passed by reference to the kernel, read
    back into a [RowVector2f] and into the returned tuple, and their
    lifetime ends when the adapter returns. *)
Definition py_data_term_at_location
    (warped_live_field canonical_field : MatrixXf) (x y : Z)
    (live_gradient_x_field live_gradient_y_field : MatrixXf)
    : M (list spec_float * spec_float) :=
  data_gradient_x ← alloca;
  data_gradient_y ← alloca;
  local_energy_contribution ← alloca;
  data_term_at_location warped_live_field canonical_field x y
                        live_gradient_x_field live_gradient_y_field
                        data_gradient_x data_gradient_y
                        local_energy_contribution;;
  let data_gradient := RowVector2f_decl in
  gx ← load data_gradient_x;
  let data_gradient := <[0%nat := Val gx]> data_gradient in
  gy ← load data_gradient_y;
  let data_gradient := <[1%nat := Val gy]> data_gradient in
  data_gradient_out ← to_python data_gradient;
  energy ← load local_energy_contribution;
  release local_energy_contribution;;
  release data_gradient_y;;
  release data_gradient_x;;
  mret (data_gradient_out, energy).

(** What the caller finds in the three output slots after the call:
    [None] when the call is undefined, or when a slot holds no value. *)
Definition outputs_of_call (W C : MatrixXf) (x y : Z) (Gx Gy : MatrixXf)
    (a b c : addr) (h : gmap Z cell)
    : option (spec_float * spec_float * spec_float) :=
  match data_term_at_location W C x y Gx Gy a b c h with
  | Some (_, h') =>
      match h' !! a, h' !! b, h' !! c with
      | Some (Val gx), Some (Val gy), Some (Val e) => Some (gx, gy, e)
      | _, _, _ => None
      end
  | None => None
  end.

(** Three output slots fit for a call: distinct, and each one an existing
    [float] object (initialised or not). *)
Definition output_slots (h : gmap Z cell) (a b c : addr) : bool :=
  bool_decide (NoDup [a; b; c])
  && bool_decide (is_Some (h !! a))
  && bool_decide (is_Some (h !! b))
  && bool_decide (is_Some (h !! c)).

(** The matrix owns initialised storage: every coefficient holds a value. *)
Definition stored (h : gmap Z cell) (A : MatrixXf) : Prop :=
  ∀ row col, in_bounds A row col = true →
    ∃ v, h !! coeff_addr A row col = Some (Val v).

(** The cells that hold the coefficients of a matrix. *)
Definition in_storage (A : MatrixXf) (a : Z) : Prop :=
  ∃ row col, in_bounds A row col = true ∧ a = coeff_addr A row col.

(** ** A concrete scene

    Four 2 x 2 fields stored one after the other from address 0, and
    three uninitialised output slots at 100, 101 and 102.  At the
    location [x = 1], [y = 0] the fields hold 1.0, 0.5, 2.0 and -1.0. *)
Module Scene.

Definition field (base : Z) : MatrixXf :=
  {| m_rows := 2; m_cols := 2; m_data := base |}.

Definition W := field 0.
Definition C := field 4.
Definition Gx := field 8.
Definition Gy := field 12.

Definition column_major (base : Z) (c00 c10 c01 c11 : spec_float)
    : list (Z * cell) :=
  [(base, Val c00); (base + 1, Val c10); (base + 2, Val c01);
   (base + 3, Val c11)].

Definition memory : gmap Z cell :=
  list_to_map
    (column_major 0 (F32.lit 3 0) (F32.lit 7 (-2)) (F32.lit 1 0) (F32.lit (-1) 1)
     ++ column_major 4 (F32.lit 0 0) (F32.lit 5 0) (F32.lit 1 (-1)) (F32.lit 9 0)
     ++ column_major 8 (F32.lit 1 0) (F32.lit 1 0) (F32.lit 2 0) (F32.lit 3 0)
     ++ column_major 12 (F32.lit 4 0) (F32.lit 6 0) (F32.lit (-1) 0) (F32.lit 1 5)
     ++ [(100, Uninit); (101, Uninit); (102, Uninit)]).

(** The same four samples in fields of another shape (1 x 2, the
    location being the last column), elsewhere in another memory. *)
Definition row_field (base : Z) : MatrixXf :=
  {| m_rows := 1; m_cols := 2; m_data := base |}.

Definition memory' : gmap Z cell :=
  list_to_map
    [(20, Val (F32.lit 8 0)); (21, Val (F32.lit 1 0));
     (30, Val (F32.lit 8 0)); (31, Val (F32.lit 1 (-1)));
     (40, Val (F32.lit 8 0)); (41, Val (F32.lit 2 0));
     (50, Val (F32.lit 8 0)); (51, Val (F32.lit (-1) 0));
     (7, Uninit); (8, Uninit); (9, Uninit)].

(** Four 1 x 1 fields at addresses 0 to 3 holding the given samples, and
    the three output slots at 100, 101 and 102. *)
Definition cell_field (base : Z) : MatrixXf :=
  {| m_rows := 1; m_cols := 1; m_data := base |}.

Definition point (live canonical gx gy : spec_float) : gmap Z cell :=
  list_to_map
    [(0, Val live); (1, Val canonical); (2, Val gx); (3, Val gy);
     (100, Uninit); (101, Uninit); (102, Uninit)].

End Scene.

(** ** Further observations *)

Definition is_nan (x : spec_float) : bool :=
  match x with
  | S754_nan => true
  | _ => false
  end.

(** The sign bit of a datum that has one: a NaN has none here. *)
Definition sign_bit (x : spec_float) : option bool :=
  match x with
  | S754_zero s | S754_infinity s | S754_finite s _ _ => Some s
  | S754_nan => None
  end.

(** [x'] is the negation of [x]: where [x] is not a NaN, [x] with its sign
    bit flipped and nothing else changed; where [x] is a NaN, a NaN. *)
Definition negation_of (x x' : spec_float) : Prop :=
  match x with
  | S754_zero s => x' = S754_zero (negb s)
  | S754_infinity s => x' = S754_infinity (negb s)
  | S754_nan => is_nan x' = true
  | S754_finite s m e => x' = S754_finite (negb s) m e
  end.

(** The difference of the two samples is undefined: one of them is a
    NaN, or both are the same infinity. *)
Definition undefined_difference (live canonical : spec_float) : bool :=
  is_nan live || is_nan canonical
  || match live, canonical with
     | S754_infinity s, S754_infinity s' => Bool.eqb s s'
     | _, _ => false
     end.

(** No output slot is one of the four cells that the call samples. *)
Definition slots_off_samples (W C : MatrixXf) (x y : Z) (Gx Gy : MatrixXf)
    (a b c : addr) : bool :=
  forallb (λ A, negb (bool_decide (coeff_addr A y x ∈ [a; b; c])))
          [W; C; Gx; Gy].

(** The field can be read at the location [(x, y)]: the location is in
    bounds and the cell holds a value. *)
Definition readable (h : gmap Z cell) (A : MatrixXf) (x y : Z) : Prop :=
  in_bounds A y x = true ∧ ∃ v, h !! coeff_addr A y x = Some (Val v).

(** ** Digit counts *)

(** Linear arithmetic after unfolding the exponent function, and after
    exposing the digit count of a positive mantissa. *)
Ltac fexp_lia := unfold fexp, emin in *; lia.
Ltac digits_lia := cbn [Zdigits2] in *; lia.

Section Digits.

(** [Zdigits2] is the bit length: one more than the binary logarithm. *)
Lemma digits2_pos_size p : digits2_pos p = Pos.size p.
Proof. induction p; simpl; congruence. Qed.

Lemma Zdigits2_log2 m : 0 < m → Zdigits2 m = Z.log2 m + 1.
Proof.
  destruct m as [|p|p]; [lia| |lia]. intros _. simpl.
  rewrite digits2_pos_size. destruct p; simpl; lia.
Qed.

Lemma Zdigits2_pos m : 0 < m → 0 < Zdigits2 m.
Proof. intros H. rewrite Zdigits2_log2 by done. pose proof (Z.log2_nonneg m). lia. Qed.

Lemma Zdigits2_mono a b : 0 < a → a ≤ b → Zdigits2 a ≤ Zdigits2 b.
Proof.
  intros Ha Hab. rewrite !Zdigits2_log2 by lia.
  pose proof (Z.log2_le_mono a b Hab). lia.
Qed.

Lemma Zdigits2_succ a : 0 < a → Zdigits2 (a + 1) ≤ Zdigits2 a + 1.
Proof.
  intros Ha. rewrite !Zdigits2_log2 by lia.
  pose proof (Z.log2_succ_le a). unfold Z.succ in *. lia.
Qed.

Lemma Zdigits2_mul_pow2 a n : 0 < a → 0 ≤ n → Zdigits2 (a * 2 ^ n) = Zdigits2 a + n.
Proof.
  intros Ha Hn. rewrite !Zdigits2_log2; [|lia|].
  - rewrite Z.log2_mul_pow2 by lia. lia.
  - apply Z.mul_pos_pos; [done|]. apply Z.pow_pos_nonneg; lia.
Qed.

Lemma Zdigits2_mul a b :
  0 < a → 0 < b →
  Zdigits2 a + Zdigits2 b - 1 ≤ Zdigits2 (a * b) ≤ Zdigits2 a + Zdigits2 b.
Proof.
  intros Ha Hb. rewrite !Zdigits2_log2 by lia.
  pose proof (Z.log2_mul_below a b Ha Hb).
  pose proof (Z.log2_mul_above a b). lia.
Qed.

(** Dropping [n] low bits drops [n] digits, as long as some remain. *)
Lemma Zdigits2_div_pow2 a n :
  0 < a → 0 ≤ n < Zdigits2 a →
  0 < a / 2 ^ n ∧ Zdigits2 (a / 2 ^ n) = Zdigits2 a - n.
Proof.
  intros Ha Hn. rewrite Zdigits2_log2 in Hn by done.
  assert (Hpos : 0 < a / 2 ^ n).
  { apply Z.div_str_pos. split; [apply Z.pow_pos_nonneg; lia|].
    etrans; [|apply (Z.log2_spec a Ha)]. apply Z.pow_le_mono_r; lia. }
  split; [done|]. rewrite !Zdigits2_log2 by done.
  rewrite <- Z.shiftr_div_pow2 by lia. rewrite Z.log2_shiftr by done. lia.
Qed.

Lemma div_pow2_small a n : 0 < a → Zdigits2 a ≤ n → a / 2 ^ n = 0.
Proof.
  intros Ha Hn. rewrite Zdigits2_log2 in Hn by done.
  apply Z.div_small. split; [lia|].
  eapply Z.lt_le_trans; [apply (Z.log2_spec a Ha)|].
  apply Z.pow_le_mono_r; lia.
Qed.

(** A sum has at most one digit more than its longer term. *)
Lemma Zdigits2_add a b :
  0 < a → 0 < b → Zdigits2 (a + b) ≤ Z.max (Zdigits2 a) (Zdigits2 b) + 1.
Proof.
  intros Ha Hb. rewrite !Zdigits2_log2 by lia.
  pose proof (Z.log2_add_le a b). 
  destruct (Z.le_ge_cases a b).
  - assert (a + b ≤ 2 * b) by lia.
    pose proof (Z.log2_le_mono _ _ H1). rewrite Z.log2_double in H2 by lia. lia.
  - assert (a + b ≤ 2 * a) by lia.
    pose proof (Z.log2_le_mono _ _ H1). rewrite Z.log2_double in H2 by lia. lia.
Qed.

End Digits.

(** ** Rounding to nearest, ties to even *)

Section Rounding.
Variables prec emax : Z.
Hypothesis prec_pos : 0 < prec.
Hypothesis prec_lt_emax : prec < emax.

(** The mantissa after right shifts: the quotient by the power of two.
    The round and sticky bits do not matter for its size. *)
Lemma shr_1_m mrs : 0 ≤ shr_m mrs → shr_m (shr_1 mrs) = shr_m mrs / 2.
Proof.
  destruct mrs as [m r s]. simpl. intros Hm.
  rewrite <- Z.div2_div. destruct m as [|[p|p|]|]; try reflexivity; lia.
Qed.

Lemma iter_shr_1_m n mrs :
  0 ≤ shr_m mrs → shr_m (SpecFloat.iter_pos shr_1 n mrs) = shr_m mrs / 2 ^ Z.pos n.
Proof.
  revert mrs. induction n as [n IH|n IH|]; intros mrs Hm; simpl.
  - assert (H1 : 0 ≤ shr_m (shr_1 mrs)).
    { rewrite shr_1_m by done. apply Z.div_pos; lia. }
    assert (H2 : 0 ≤ shr_m (SpecFloat.iter_pos shr_1 n (shr_1 mrs))).
    { rewrite IH by done. apply Z.div_pos; lia. }
    rewrite IH, IH, shr_1_m by done.
    rewrite !Z.div_div by lia. f_equal.
    replace (Z.pos n~1) with (1 + Z.pos n + Z.pos n) by lia.
    rewrite !Z.pow_add_r by lia. lia.
  - assert (H2 : 0 ≤ shr_m (SpecFloat.iter_pos shr_1 n mrs)).
    { rewrite IH by done. apply Z.div_pos; lia. }
    rewrite IH, IH by done.
    rewrite !Z.div_div by lia. f_equal.
    replace (Z.pos n~0) with (Z.pos n + Z.pos n) by lia.
    rewrite !Z.pow_add_r by lia. lia.
  - rewrite shr_1_m by done. reflexivity.
Qed.

Lemma shr_spec mrs e n :
  0 ≤ shr_m mrs →
  shr_m (shr mrs e n).1 = shr_m mrs / 2 ^ Z.max n 0
  ∧ (shr mrs e n).2 = e + Z.max n 0.
Proof.
  intros Hm. destruct n as [|p|p]; simpl.
  - rewrite Z.div_1_r. lia.
  - rewrite iter_shr_1_m by done. rewrite Z.max_l by lia. lia.
  - rewrite Z.div_1_r. lia.
Qed.

Lemma shr_m_of_loc m l : shr_m (shr_record_of_loc m l) = m.
Proof. destruct l as [|[]]; reflexivity. Qed.

(** Rounding keeps the truncated mantissa or takes the next one. *)
Lemma round_nearest_even_bounds m l :
  m ≤ round_nearest_even m l ≤ m + 1.
Proof.
  destruct l as [|[]]; simpl; try lia. destruct (Z.even m); lia.
Qed.

(** The shape of a rounded result.  With [D] the magnitude of the exact
    value [m * 2^e] (its digits plus its exponent) and an exponent that
    asks for no left shift: the result is never a NaN; it is a zero only
    when the exact value lies under the subnormal range, an infinity
    only when [D] reaches [emax]; a finite result has the sign given, a
    canonical mantissa and exponent, and the magnitude [D] or [D + 1]
    (the carry of a rounding up to a power of two). *)
Lemma binary_round_aux_spec s m e l :
  0 < m → e ≤ fexp prec emax (Zdigits2 m + e) →
  match binary_round_aux prec emax s m e l with
  | S754_zero s' => s' = s ∧ Zdigits2 m + e ≤ emin prec emax
  | S754_infinity s' => s' = s ∧ emax ≤ Zdigits2 m + e
  | S754_nan => False
  | S754_finite s' m' e' =>
      s' = s ∧ bounded prec emax m' e' = true
      ∧ Zdigits2 m + e ≤ Zdigits2 (Z.pos m') + e'
          ≤ Z.max (Zdigits2 m + e) (emin prec emax) + 1
  end.
Proof.
  intros Hm He. unfold binary_round_aux, shr_fexp.
  set (D := Zdigits2 m + e) in *.
  destruct (shr_spec (shr_record_of_loc m l) e (fexp prec emax D - e))
    as [Hm1 He1]; [rewrite shr_m_of_loc; lia|].
  destruct (shr (shr_record_of_loc m l) e (fexp prec emax D - e))
    as [mrs' e']. simpl in Hm1, He1.
  rewrite shr_m_of_loc in Hm1. rewrite Z.max_l in Hm1, He1 by lia.
  assert (He' : e' = fexp prec emax D) by lia. clear He1.
  pose proof (round_nearest_even_bounds (shr_m mrs') (loc_of_shr_record mrs')) as Hr.
  set (m1 := round_nearest_even (shr_m mrs') (loc_of_shr_record mrs')) in *.
  assert (Hm'0 : 0 ≤ shr_m mrs').
  { rewrite Hm1. apply Z.div_pos; [lia|]. apply Z.pow_pos_nonneg; lia. }
  destruct (shr_spec (shr_record_of_loc m1 loc_Exact) e'
              (fexp prec emax (Zdigits2 m1 + e') - e')) as [Hm2 He2];
    [simpl; lia|].
  destruct (shr (shr_record_of_loc m1 loc_Exact) e'
              (fexp prec emax (Zdigits2 m1 + e') - e')) as [mrs'' e''].
  simpl in Hm2, He2.
  pose proof (Zdigits2_pos m Hm) as Hdm.
  unfold bounded, canonical_mantissa.
  change (Z.pos (digits2_pos ?p)) with (Zdigits2 (Z.pos p)).
  destruct (Z.lt_ge_cases (fexp prec emax D - e) (Zdigits2 m)) as [Hn1|Hn1].
  - (* some of the mantissa survives the first shift *)
    destruct (Zdigits2_div_pow2 m (fexp prec emax D - e) Hm) as [Hpos Hdig];
      [lia|]. rewrite <- Hm1 in Hpos, Hdig.
    assert (Hd1 : Zdigits2 (shr_m mrs') ≤ Zdigits2 m1 ≤ Zdigits2 (shr_m mrs') + 1).
    { split; [apply Zdigits2_mono; lia|].
      etrans; [apply (Zdigits2_mono m1 (shr_m mrs' + 1)); lia|].
      apply Zdigits2_succ; lia. }
    set (n2 := fexp prec emax (Zdigits2 m1 + e') - e') in *.
    assert (Hn2 : n2 = 0
                  ∨ (n2 = 1 ∧ Zdigits2 m1 = Zdigits2 (shr_m mrs') + 1
                     ∧ emin prec emax ≤ D - prec)).
    { subst n2. fexp_lia. }
    assert (Hm1pos : 0 < m1) by lia.
    destruct Hn2 as [E|(E & Hcarry & Hnormal)]; rewrite E in Hm2, He2.
    + simpl in Hm2. rewrite Z.div_1_r in Hm2.
      destruct (shr_m mrs'') as [|p|p] eqn:Ep; [lia| |lia].
      assert (Hcanon : fexp prec emax (Zdigits2 (Z.pos p) + e'') = e'').
      { rewrite Hm2. replace e'' with e' by lia. subst n2. lia. }
      destruct (Z.leb_spec e'' (emax - prec)) as [Hle|Hgt].
      * split; [done|]. split.
        { apply andb_true_intro. split; [apply Z.eqb_eq; done|apply Z.leb_le; done]. }
        rewrite Hm2. fexp_lia.
      * split; [done|]. fexp_lia.
    + destruct (Zdigits2_div_pow2 m1 1 Hm1pos) as [Hpos2 Hdig2]; [lia|].
      change (1 `max` 0) with 1 in Hm2, He2.
      rewrite <- Hm2 in Hpos2, Hdig2.
      destruct (shr_m mrs'') as [|p|p] eqn:Ep; [lia| |lia].
      assert (Hcanon : fexp prec emax (Zdigits2 (Z.pos p) + e'') = e'').
      { rewrite Hdig2. replace (Zdigits2 m1 - 1 + e'') with (Zdigits2 m1 + e') by lia.
        subst n2. lia. }
      destruct (Z.leb_spec e'' (emax - prec)) as [Hle|Hgt].
      * split; [done|]. split.
        { apply andb_true_intro. split; [apply Z.eqb_eq; done|apply Z.leb_le; done]. }
        fexp_lia.
      * split; [done|]. fexp_lia.
  - (* the whole mantissa is shifted out: the exact value is below the
       least subnormal *)
    pose proof (div_pow2_small m (fexp prec emax D - e) Hm Hn1) as Hz.
    assert (HDe : D = Zdigits2 m + e) by done. clearbody D.
    rewrite <- Hm1 in Hz. rewrite Hz in Hr.
    assert (Hm1v : m1 = 0 ∨ m1 = 1) by lia.
    clearbody m1. destruct Hm1v as [E|E]; subst m1.
    + simpl in Hm2. rewrite Z.div_0_l in Hm2.
      2:{ apply Z.pow_nonzero; lia. }
      rewrite Hm2. split; [done|]. clear Hm2 He2 Hm1. fexp_lia.
    + change (Zdigits2 1) with 1 in *.
      assert (En2 : fexp prec emax (1 + e') - e' = 0).
      { clear Hm2 He2 Hm1. fexp_lia. }
      rewrite En2 in Hm2, He2. simpl in Hm2. rewrite Hm2. cbv beta iota.
      change (Zdigits2 1) with 1.
      destruct (Z.leb_spec e'' (emax - prec)) as [Hle|Hgt].
      * split; [done|]. split.
        { apply andb_true_intro. split; [apply Z.eqb_eq|apply Z.leb_le; done].
          change (Zdigits2 1) with 1. replace e'' with e' by lia. lia. }
        change (Zdigits2 1) with 1. fexp_lia.
      * fexp_lia.
Qed.

(** Alignment shifts a mantissa left and lowers its exponent; the value
    and the magnitude stay. *)
Lemma iter_xO m d : Z.pos (Pos.iter xO m d) = Z.pos m * 2 ^ Z.pos d.
Proof.
  induction d as [|d IH] using Pos.peano_ind.
  - simpl. lia.
  - rewrite Pos.iter_succ, Pos2Z.inj_xO, IH, Pos2Z.inj_succ, Z.pow_succ_r by lia. lia.
Qed.

Lemma shl_align_spec mx ex ex' :
  (shl_align mx ex ex').2 = Z.min ex ex'
  ∧ Z.pos (shl_align mx ex ex').1 = Z.pos mx * 2 ^ (ex - Z.min ex ex').
Proof.
  unfold shl_align. destruct (ex' - ex) as [|d|d] eqn:E; simpl.
  - rewrite Z.min_l by lia. rewrite Z.sub_diag. simpl. lia.
  - rewrite Z.min_l by lia. rewrite Z.sub_diag. simpl. lia.
  - rewrite Z.min_r by lia. rewrite iter_xO.
    replace (ex - ex') with (Z.pos d) by lia. lia.
Qed.

(** [binary_round] aligns first, so that [binary_round_aux_spec] applies
    to every mantissa and exponent. *)
Lemma binary_round_spec s m e :
  match binary_round prec emax s m e with
  | S754_zero s' => s' = s ∧ Zdigits2 (Z.pos m) + e ≤ emin prec emax
  | S754_infinity s' => s' = s ∧ emax ≤ Zdigits2 (Z.pos m) + e
  | S754_nan => False
  | S754_finite s' m' e' =>
      s' = s ∧ bounded prec emax m' e' = true
      ∧ Zdigits2 (Z.pos m) + e ≤ Zdigits2 (Z.pos m') + e'
          ≤ Z.max (Zdigits2 (Z.pos m) + e) (emin prec emax) + 1
  end.
Proof.
  unfold binary_round.
  change (Z.pos (digits2_pos m)) with (Zdigits2 (Z.pos m)).
  destruct (shl_align_spec m e (fexp prec emax (Zdigits2 (Z.pos m) + e))) as [He Hm].
  destruct (shl_align m e (fexp prec emax (Zdigits2 (Z.pos m) + e))) as [mz ez].
  cbn [fst snd] in He, Hm.
  assert (HD : Zdigits2 (Z.pos mz) + ez = Zdigits2 (Z.pos m) + e).
  { rewrite Hm, Zdigits2_mul_pow2 by lia. lia. }
  pose proof (binary_round_aux_spec s (Z.pos mz) ez loc_Exact) as H.
  rewrite HD in H. apply H; lia.
Qed.

(** Mantissa and exponent of a valid datum. *)
Lemma bounded_inv m e :
  bounded prec emax m e = true →
  emin prec emax ≤ e ≤ emax - prec ∧ Zdigits2 (Z.pos m) ≤ prec
  ∧ (Zdigits2 (Z.pos m) = prec ∨ e = emin prec emax).
Proof.
  unfold bounded, canonical_mantissa. intros H.
  apply andb_prop in H as [H1 H2]. apply Z.eqb_eq in H1. apply Z.leb_le in H2.
  change (Z.pos (digits2_pos m)) with (Zdigits2 (Z.pos m)) in H1.
  fexp_lia.
Qed.

(** Magnitude bounds through the operations: no overflow while the
    bounds stay under [emax]. *)
Lemma finite_below_mono j k x :
  j ≤ k → finite_below prec emax j x → finite_below prec emax k x.
Proof. destruct x; simpl; intros; try done. split; [tauto|lia]. Qed.

Lemma SFmul_finite_below j k x y :
  finite_below prec emax j x → finite_below prec emax k y →
  emin prec emax ≤ j + k < emax →
  finite_below prec emax (j + k + 1) (SFmul prec emax x y).
Proof.
  destruct x as [sx|sx| |sx mx ex], y as [sy|sy| |sy my ey]; simpl; try done.
  intros [Bx Hx] [By Hy] Hjk.
  apply bounded_inv in Bx as (Hex & Hdx & Hcx).
  apply bounded_inv in By as (Hey & Hdy & Hcy).
  pose proof (Zdigits2_pos (Z.pos mx)) as Hpx.
  pose proof (Zdigits2_pos (Z.pos my)) as Hpy.
  pose proof (Zdigits2_mul (Z.pos mx) (Z.pos my)) as Hd.
  rewrite <- Pos2Z.inj_mul in Hd.
  pose proof (binary_round_aux_spec
                (xorb sx sy) (Z.pos (mx * my)) (ex + ey) loc_Exact) as H.
  assert (Hpre : ex + ey ≤ fexp prec emax (Zdigits2 (Z.pos (mx * my)) + (ex + ey))).
  { fexp_lia. }
  specialize (H ltac:(lia) Hpre). clear Hpre.
  destruct (binary_round_aux prec emax (xorb sx sy) (Z.pos (mx * my)) (ex + ey) loc_Exact)
    as [s|s| |s m e]; simpl.
  - done.
  - destruct H as [_ H]. digits_lia.
  - done.
  - destruct H as (_ & Hb & Hm). split; [done|]. digits_lia.
Qed.

Lemma SFmul_valid x y :
  valid_binary prec emax x = true → valid_binary prec emax y = true →
  valid_binary prec emax (SFmul prec emax x y) = true.
Proof.
  destruct x as [sx|sx| |sx mx ex], y as [sy|sy| |sy my ey]; simpl; try done.
  intros Bx By.
  apply bounded_inv in Bx as (Hex & Hdx & Hcx).
  apply bounded_inv in By as (Hey & Hdy & Hcy).
  pose proof (Zdigits2_pos (Z.pos mx)) as Hpx.
  pose proof (Zdigits2_pos (Z.pos my)) as Hpy.
  pose proof (Zdigits2_mul (Z.pos mx) (Z.pos my)) as Hd.
  rewrite <- Pos2Z.inj_mul in Hd.
  pose proof (binary_round_aux_spec
                (xorb sx sy) (Z.pos (mx * my)) (ex + ey) loc_Exact) as H.
  assert (Hpre : ex + ey ≤ fexp prec emax (Zdigits2 (Z.pos (mx * my)) + (ex + ey))).
  { fexp_lia. }
  specialize (H ltac:(lia) Hpre). clear Hpre.
  destruct (binary_round_aux prec emax (xorb sx sy) (Z.pos (mx * my)) (ex + ey) loc_Exact)
    as [s|s| |s m e]; simpl; try done.
  tauto.
Qed.

(** The product of two finite non-zero numbers: the exact product is
    handed to the rounding with an exponent that calls for no left
    shift, and the result is as [binary_round_aux_spec] says. *)
Lemma SFmul_finite_spec sx mx ex sy my ey :
  bounded prec emax mx ex = true → bounded prec emax my ey = true →
  let D := Zdigits2 (Z.pos (mx * my)) + (ex + ey) in
  (Zdigits2 (Z.pos mx) + ex) + (Zdigits2 (Z.pos my) + ey) - 1 ≤ D
    ≤ (Zdigits2 (Z.pos mx) + ex) + (Zdigits2 (Z.pos my) + ey)
  ∧ match SFmul prec emax (S754_finite sx mx ex) (S754_finite sy my ey) with
    | S754_zero s => D ≤ emin prec emax
    | S754_infinity s => emax ≤ D
    | S754_nan => False
    | S754_finite s m e =>
        s = xorb sx sy ∧ bounded prec emax m e = true
        ∧ D ≤ Zdigits2 (Z.pos m) + e ≤ Z.max D (emin prec emax) + 1
    end.
Proof.
  intros Bx By D.
  apply bounded_inv in Bx as (Hex & Hdx & Hcx).
  apply bounded_inv in By as (Hey & Hdy & Hcy).
  pose proof (Zdigits2_pos (Z.pos mx)) as Hpx.
  pose proof (Zdigits2_pos (Z.pos my)) as Hpy.
  pose proof (Zdigits2_mul (Z.pos mx) (Z.pos my)) as Hd.
  rewrite <- Pos2Z.inj_mul in Hd.
  split; [subst D; lia|].
  pose proof (binary_round_aux_spec
                (xorb sx sy) (Z.pos (mx * my)) (ex + ey) loc_Exact) as H.
  assert (Hpre : ex + ey ≤ fexp prec emax (Zdigits2 (Z.pos (mx * my)) + (ex + ey))).
  { fexp_lia. }
  specialize (H ltac:(lia) Hpre). clear Hpre.
  cbv beta iota delta [SFmul].
  destruct (binary_round_aux prec emax (xorb sx sy) (Z.pos (mx * my)) (ex + ey) loc_Exact)
    as [s|s| |s m e]; tauto.
Qed.

(** The aligned mantissas of a subtraction. *)
Lemma SFsub_finite sx mx ex sy my ey :
  ∃ X Y : positive,
    Zdigits2 (Z.pos X) + Z.min ex ey = Zdigits2 (Z.pos mx) + ex
    ∧ Zdigits2 (Z.pos Y) + Z.min ex ey = Zdigits2 (Z.pos my) + ey
    ∧ (ex = ey → X = mx ∧ Y = my)
    ∧ SFsub prec emax (S754_finite sx mx ex) (S754_finite sy my ey)
      = binary_normalize prec emax
          (cond_Zopp sx (Z.pos X) - cond_Zopp sy (Z.pos Y)) (Z.min ex ey) false.
Proof.
  exists (shl_align mx ex (Z.min ex ey)).1, (shl_align my ey (Z.min ex ey)).1.
  destruct (shl_align_spec mx ex (Z.min ex ey)) as [_ HX].
  destruct (shl_align_spec my ey (Z.min ex ey)) as [_ HY].
  split; [|split; [|split]].
  - rewrite HX, Zdigits2_mul_pow2 by lia. lia.
  - rewrite HY, Zdigits2_mul_pow2 by lia. lia.
  - intros ->. rewrite !Z.min_id, Z.sub_diag, Z.pow_0_r in HX, HY.
    rewrite Z.min_id. split; lia.
  - reflexivity.
Qed.

(** The rounded value of a signed integer mantissa. *)
Lemma binary_normalize_spec m e :
  match binary_normalize prec emax m e false with
  | S754_zero _ => True
  | S754_infinity _ => emax ≤ Zdigits2 m + e
  | S754_nan => False
  | S754_finite s' m' e' =>
      bounded prec emax m' e' = true
      ∧ Zdigits2 (Z.pos m') + e' ≤ Z.max (Zdigits2 m + e) (emin prec emax) + 1
  end.
Proof.
  destruct m as [|p|p]; simpl; [done| |].
  - pose proof (binary_round_spec false p e) as H.
    destruct (binary_round prec emax false p e); cbn [Zdigits2] in *; tauto.
  - pose proof (binary_round_spec true p e) as H.
    destruct (binary_round prec emax true p e); cbn [Zdigits2] in *; tauto.
Qed.

Lemma Zdigits2_sub_le (sx sy : bool) (X Y : positive) :
  Zdigits2 (cond_Zopp sx (Z.pos X) - cond_Zopp sy (Z.pos Y))
  ≤ Z.max (Zdigits2 (Z.pos X)) (Zdigits2 (Z.pos Y)) + 1.
Proof.
  pose proof (Zdigits2_add (Z.pos X) (Z.pos Y) ltac:(lia) ltac:(lia)) as Hadd.
  pose proof (Zdigits2_pos (Z.pos X) ltac:(lia)).
  pose proof (Zdigits2_pos (Z.pos Y) ltac:(lia)).
  assert (Habs : ∀ z, Zdigits2 z = Zdigits2 (Z.abs z)) by (by intros [| |]).
  rewrite Habs.
  set (M := Z.abs (cond_Zopp sx (Z.pos X) - cond_Zopp sy (Z.pos Y))).
  assert (HM : 0 ≤ M ≤ Z.pos X + Z.pos Y).
  { subst M. destruct sx, sy; simpl cond_Zopp; lia. }
  destruct (decide (M = 0)) as [->|Hne]; [simpl; lia|].
  etrans; [apply (Zdigits2_mono M (Z.pos X + Z.pos Y)); lia|]. done.
Qed.

Lemma SFsub_finite_below k x y :
  finite_below prec emax k x → finite_below prec emax k y →
  emin prec emax ≤ k → k + 1 < emax →
  finite_below prec emax (k + 2) (SFsub prec emax x y).
Proof.
  destruct x as [sx|sx| |sx mx ex], y as [sy|sy| |sy my ey]; try done.
  - intros _ _ _ _. simpl. by destruct sx, sy.
  - intros _ [By Hy] _ _. simpl. split; [done|]. digits_lia.
  - intros [Bx Hx] _ _ _. simpl. split; [done|]. digits_lia.
  - intros [Bx Hx] [By Hy] Hk1 Hk2.
    destruct (SFsub_finite sx mx ex sy my ey) as (X & Y & HX & HY & _ & ->).
    pose proof (Zdigits2_sub_le sx sy X Y) as Hd.
    pose proof (binary_normalize_spec
                  (cond_Zopp sx (Z.pos X) - cond_Zopp sy (Z.pos Y)) (Z.min ex ey)) as H.
    destruct (binary_normalize prec emax _ _ false) as [s|s| |s m e]; simpl.
    + done.
    + digits_lia.
    + done.
    + destruct H as [Hb Hm]. split; [done|]. digits_lia.
Qed.

Lemma SFsub_valid x y :
  valid_binary prec emax x = true → valid_binary prec emax y = true →
  valid_binary prec emax (SFsub prec emax x y) = true.
Proof.
  destruct x as [sx|sx| |sx mx ex], y as [sy|sy| |sy my ey]; try done.
  - intros _ _. simpl. by destruct sx, sy.
  - intros _ _. simpl. by destruct sx, sy.
  - intros _ _.
    destruct (SFsub_finite sx mx ex sy my ey) as (X & Y & _ & _ & _ & ->).
    pose proof (binary_normalize_spec
                  (cond_Zopp sx (Z.pos X) - cond_Zopp sy (Z.pos Y)) (Z.min ex ey)) as H.
    destruct (binary_normalize prec emax _ _ false) as [s|s| |s m e]; simpl; try done.
    tauto.
Qed.

(** Signs. *)
Lemma binary_round_aux_opp s m e l :
  binary_round_aux prec emax (negb s) m e l
  = SFopp (binary_round_aux prec emax s m e l).
Proof.
  unfold binary_round_aux.
  destruct (shr_fexp prec emax m e l) as [mrs' e'].
  destruct (shr_fexp prec emax _ e' loc_Exact) as [mrs'' e''].
  destruct (shr_m mrs''); [done| |done].
  by destruct (e'' <=? emax - prec).
Qed.


Lemma SFmul_opp_l x y :
  SFmul prec emax (SFopp x) y = SFopp (SFmul prec emax x y).
Proof.
  destruct x as [sx|sx| |sx mx ex], y as [sy|sy| |sy my ey]; simpl;
    rewrite <- ?negb_xorb_l; try done.
  apply binary_round_aux_opp.
Qed.

Lemma SFmul_opp_r x y :
  SFmul prec emax x (SFopp y) = SFopp (SFmul prec emax x y).
Proof.
  destruct x as [sx|sx| |sx mx ex], y as [sy|sy| |sy my ey]; simpl;
    rewrite <- ?negb_xorb_r; try done.
  apply binary_round_aux_opp.
Qed.



(** IEEE equality of two finite numbers makes their difference a zero. *)
Lemma SFsub_eqb x y :
  SFeqb x y = true →
  (∃ s, SFsub prec emax x y = S754_zero s)
  ∨ (∃ s, x = S754_infinity s ∧ y = S754_infinity s).
Proof.
  unfold SFeqb.
  destruct x as [sx|sx| |sx mx ex], y as [sy|sy| |sy my ey]; simpl; try done.
  - intros _. left. destruct sx, sy; eauto.
  - by destruct sy.
  - by destruct sy.
  - by destruct sx.
  - destruct sx, sy; try done; intros _; right; eauto.
  - by destruct sx.
  - by destruct sx.
  - by destruct sy.
  - intros H. left.
    assert (sx = sy ∧ ex = ey ∧ mx = my) as (-> & -> & ->).
    { change (Pos.compare_cont Eq mx my) with (Pos.compare mx my) in H.
      destruct sx, sy; try done; destruct (Z.compare_spec ex ey); try done;
        (split; [done|split; [done|]]).
      - destruct (Pos.compare_spec mx my); simpl in *; done.
      - destruct (Pos.compare_spec mx my); simpl in *; done. }
    destruct (SFsub_finite sy my ey sy my ey) as (X & Y & _ & _ & Heq & Hsub).
    destruct Heq as [-> ->]; [done|]. unfold SFsub in *. rewrite Hsub.
    rewrite Z.sub_diag. simpl. eauto.
Qed.

(** The shifts do not look at the exponent. *)
Lemma shr_succ_exponent mrs e n :
  shr mrs (e + 1) n = ((shr mrs e n).1, (shr mrs e n).2 + 1).
Proof. destruct n; simpl; f_equal; lia. Qed.

(** Above the subnormal range, rounding commutes with doubling. *)
Lemma binary_round_aux_double s m e l m' e' :
  0 < m →
  emin prec emax + prec ≤ Zdigits2 m + e →
  binary_round_aux prec emax s m e l = S754_finite s m' e' →
  e' + 1 ≤ emax - prec →
  binary_round_aux prec emax s m (e + 1) l = S754_finite s m' (e' + 1).
Proof.
  intros Hm Hnormal. unfold binary_round_aux, shr_fexp.
  assert (En1 : fexp prec emax (Zdigits2 m + (e + 1)) - (e + 1)
                = fexp prec emax (Zdigits2 m + e) - e).
  { fexp_lia. }
  rewrite En1, shr_succ_exponent.
  destruct (shr_spec (shr_record_of_loc m l) e (fexp prec emax (Zdigits2 m + e) - e))
    as [Hm1 He1]; [rewrite shr_m_of_loc; lia|].
  rewrite shr_m_of_loc in Hm1.
  destruct (shr (shr_record_of_loc m l) e (fexp prec emax (Zdigits2 m + e) - e))
    as [mrs' e1]. cbn [fst snd] in *.
  set (m1 := round_nearest_even (shr_m mrs') (loc_of_shr_record mrs')).
  pose proof (round_nearest_even_bounds (shr_m mrs') (loc_of_shr_record mrs')) as Hr.
  fold m1 in Hr.
  pose proof (Zdigits2_pos m Hm) as Hdm.
  assert (HD1 : emin prec emax + prec ≤ Zdigits2 m1 + e1 ∧ 0 < m1).
  { destruct (Z.le_gt_cases (fexp prec emax (Zdigits2 m + e) - e) 0) as [Hn|Hn].
    - rewrite Z.max_r in Hm1, He1 by lia. rewrite Z.div_1_r in Hm1.
      rewrite Hm1 in Hr.
      pose proof (Zdigits2_mono m m1 Hm ltac:(lia)). lia.
    - rewrite Z.max_l in Hm1, He1 by lia.
      destruct (Zdigits2_div_pow2 m (fexp prec emax (Zdigits2 m + e) - e) Hm)
        as [Hpos Hdig]; [unfold fexp, emin in *; lia|].
      rewrite <- Hm1 in Hpos, Hdig.
      pose proof (Zdigits2_mono (shr_m mrs') m1 Hpos ltac:(lia)).
      fexp_lia. }
  destruct HD1 as [HD1 Hm1pos].
  assert (En2 : fexp prec emax (Zdigits2 m1 + (e1 + 1)) - (e1 + 1)
                = fexp prec emax (Zdigits2 m1 + e1) - e1).
  { fexp_lia. }
  rewrite En2, shr_succ_exponent.
  destruct (shr (shr_record_of_loc m1 loc_Exact) e1 _) as [mrs'' e2].
  cbn [fst snd].
  destruct (shr_m mrs'') as [|p|p]; [done| |done].
  destruct (Z.leb_spec e2 (emax - prec)); [|done].
  intros [= <- <-] Hle.
  destruct (Z.leb_spec (e2 + 1) (emax - prec)); [done|lia].
Qed.

(** A mantissa that fits, padded with zero bits, is rounded to itself. *)
Lemma shr_1_exact m :
  0 < m →
  shr_1 {| shr_m := 2 * m; shr_r := false; shr_s := false |}
  = {| shr_m := m; shr_r := false; shr_s := false |}.
Proof. destruct m; [lia|reflexivity|lia]. Qed.

Lemma iter_shr_1_exact n m :
  0 < m →
  SpecFloat.iter_pos shr_1 n
    {| shr_m := m * 2 ^ Z.pos n; shr_r := false; shr_s := false |}
  = {| shr_m := m; shr_r := false; shr_s := false |}.
Proof.
  revert m. induction n as [n IH|n IH|]; intros m Hm; cbn [SpecFloat.iter_pos].
  - assert (Hp : 0 < 2 ^ Z.pos n) by (apply Z.pow_pos_nonneg; lia).
    replace (m * 2 ^ Z.pos n~1) with (2 * (m * 2 ^ Z.pos n * 2 ^ Z.pos n)).
    2:{ replace (Z.pos n~1) with (1 + Z.pos n + Z.pos n) by lia.
        rewrite !Z.pow_add_r by lia. lia. }
    rewrite shr_1_exact by nia. rewrite IH by nia. apply IH. done.
  - assert (Hp : 0 < 2 ^ Z.pos n) by (apply Z.pow_pos_nonneg; lia).
    replace (m * 2 ^ Z.pos n~0) with (m * 2 ^ Z.pos n * 2 ^ Z.pos n).
    2:{ replace (Z.pos n~0) with (Z.pos n + Z.pos n) by lia.
        rewrite !Z.pow_add_r by lia. lia. }
    rewrite IH by nia. apply IH. done.
  - rewrite Z.pow_1_r, Z.mul_comm. apply shr_1_exact. done.
Qed.

Lemma binary_round_aux_exact s (m : positive) k e :
  Zdigits2 (Z.pos m) = prec → 0 ≤ k →
  emin prec emax ≤ e + k ≤ emax - prec →
  binary_round_aux prec emax s (Z.pos m * 2 ^ k) e loc_Exact
  = S754_finite s m (e + k).
Proof.
  intros Hd Hk He. unfold binary_round_aux, shr_fexp.
  rewrite Zdigits2_mul_pow2 by lia.
  assert (En1 : fexp prec emax (Zdigits2 (Z.pos m) + k + e) - e = k).
  { fexp_lia. }
  rewrite En1.
  assert (Hshr : shr (shr_record_of_loc (Z.pos m * 2 ^ k) loc_Exact) e k
                 = ({| shr_m := Z.pos m; shr_r := false; shr_s := false |}, e + k)).
  { destruct k as [|k|k]; [|simpl shr|lia].
    - simpl. do 2 f_equal; lia.
    - rewrite iter_shr_1_exact by lia. reflexivity. }
  rewrite Hshr. cbn [shr_m loc_of_shr_record round_nearest_even].
  assert (En2 : fexp prec emax (Zdigits2 (Z.pos m) + (e + k)) - (e + k) = 0).
  { fexp_lia. }
  rewrite En2. simpl.
  destruct (Z.leb_spec (e + k) (emax - prec)); [done|lia].
Qed.

End Rounding.

(** ** Rounding and doubling *)

Section Doubling.
Variables prec emax : Z.
Hypothesis prec_pos : 0 < prec.
Hypothesis prec_lt_emax : prec < emax.

(** Iterated shifts: one more shift can be taken first. *)
Lemma iter_pos_comm {A} (f : A → A) p x :
  f (SpecFloat.iter_pos f p x) = SpecFloat.iter_pos f p (f x).
Proof.
  revert x. induction p as [p IH|p IH|]; intros x; cbn [SpecFloat.iter_pos].
  - by rewrite !IH.
  - by rewrite !IH.
  - done.
Qed.

Lemma iter_pos_succ {A} (f : A → A) p x :
  SpecFloat.iter_pos f (Pos.succ p) x = SpecFloat.iter_pos f p (f x).
Proof.
  revert x. induction p as [p IH|p IH|]; intros x.
  - change (Pos.succ p~1) with (Pos.succ p)~0%positive.
    cbn [SpecFloat.iter_pos]. by rewrite !IH, iter_pos_comm.
  - reflexivity.
  - reflexivity.
Qed.

(** A mantissa with one more low zero bit and an exponent one lower is
    shifted once more, to the same record. *)
Lemma shr_double_mantissa m e n :
  0 < m → 0 ≤ n →
  shr {| shr_m := 2 * m; shr_r := false; shr_s := false |} e (n + 1)
  = shr {| shr_m := m; shr_r := false; shr_s := false |} (e + 1) n.
Proof.
  intros Hm Hn. destruct n as [|q|q]; [| |lia].
  - change (0 + 1) with (Z.pos 1). cbn [shr SpecFloat.iter_pos].
    rewrite shr_1_exact by done. f_equal.
  - replace (Z.pos q + 1) with (Z.pos (Pos.succ q)) by lia.
    cbn [shr]. rewrite iter_pos_succ, shr_1_exact by done. f_equal. lia.
Qed.

Lemma binary_round_aux_double_mantissa s m e :
  0 < m →
  e + 1 ≤ fexp prec emax (Zdigits2 m + (e + 1)) →
  binary_round_aux prec emax s (2 * m) e loc_Exact
  = binary_round_aux prec emax s m (e + 1) loc_Exact.
Proof.
  intros Hm Hpre. unfold binary_round_aux, shr_fexp.
  replace (Zdigits2 (2 * m)) with (Zdigits2 m + 1).
  2:{ rewrite <- (Zdigits2_mul_pow2 m 1) by lia. f_equal. lia. }
  replace (fexp prec emax (Zdigits2 m + 1 + e) - e)
    with (fexp prec emax (Zdigits2 m + (e + 1)) - (e + 1) + 1).
  2:{ replace (Zdigits2 m + 1 + e) with (Zdigits2 m + (e + 1)) by lia. lia. }
  cbn [shr_record_of_loc]. rewrite shr_double_mantissa by lia. reflexivity.
Qed.

(** Above the subnormal range the exponent of the input only moves the
    exponent of the result, overflow included. *)
Lemma binary_round_aux_succ s m e l :
  0 < m →
  emin prec emax + prec ≤ Zdigits2 m + e →
  binary_round_aux prec emax s m (e + 1) l
  = match binary_round_aux prec emax s m e l with
    | S754_finite s' m' e' =>
        if e' + 1 <=? emax - prec then S754_finite s' m' (e' + 1)
        else S754_infinity s'
    | r => r
    end.
Proof.
  intros Hm Hnormal. unfold binary_round_aux, shr_fexp.
  assert (En1 : fexp prec emax (Zdigits2 m + (e + 1)) - (e + 1)
                = fexp prec emax (Zdigits2 m + e) - e) by fexp_lia.
  rewrite En1, shr_succ_exponent.
  destruct (shr_spec (shr_record_of_loc m l) e (fexp prec emax (Zdigits2 m + e) - e))
    as [Hm1 He1]; [rewrite shr_m_of_loc; lia|].
  rewrite shr_m_of_loc in Hm1.
  destruct (shr (shr_record_of_loc m l) e (fexp prec emax (Zdigits2 m + e) - e))
    as [mrs' e1]. cbn [fst snd] in *.
  set (m1 := round_nearest_even (shr_m mrs') (loc_of_shr_record mrs')).
  pose proof (round_nearest_even_bounds (shr_m mrs') (loc_of_shr_record mrs')) as Hr.
  fold m1 in Hr.
  pose proof (Zdigits2_pos m Hm) as Hdm.
  assert (HD1 : emin prec emax + prec ≤ Zdigits2 m1 + e1 ∧ 0 < m1).
  { destruct (Z.le_gt_cases (fexp prec emax (Zdigits2 m + e) - e) 0) as [Hn|Hn].
    - rewrite Z.max_r in Hm1, He1 by lia. rewrite Z.div_1_r in Hm1.
      rewrite Hm1 in Hr.
      pose proof (Zdigits2_mono m m1 Hm ltac:(lia)). lia.
    - rewrite Z.max_l in Hm1, He1 by lia.
      destruct (Zdigits2_div_pow2 m (fexp prec emax (Zdigits2 m + e) - e) Hm)
        as [Hpos Hdig]; [fexp_lia|].
      rewrite <- Hm1 in Hpos, Hdig.
      pose proof (Zdigits2_mono (shr_m mrs') m1 Hpos ltac:(lia)).
      fexp_lia. }
  destruct HD1 as [HD1 Hm1pos].
  assert (En2 : fexp prec emax (Zdigits2 m1 + (e1 + 1)) - (e1 + 1)
                = fexp prec emax (Zdigits2 m1 + e1) - e1) by fexp_lia.
  rewrite En2, shr_succ_exponent.
  destruct (shr (shr_record_of_loc m1 loc_Exact) e1 _) as [mrs'' e2].
  cbn [fst snd].
  destruct (shr_m mrs'') as [|p|p]; [done| |done].
  destruct (Z.leb_spec e2 (emax - prec)), (Z.leb_spec (e2 + 1) (emax - prec));
    try done; lia.
Qed.

(** A canonical mantissa padded with zero bits is rounded to itself,
    or to an infinity beyond the largest exponent. *)
Lemma binary_round_aux_padded s (m : positive) k e :
  fexp prec emax (Zdigits2 (Z.pos m) + (e + k)) = e + k → 0 ≤ k →
  binary_round_aux prec emax s (Z.pos m * 2 ^ k) e loc_Exact
  = if e + k <=? emax - prec then S754_finite s m (e + k) else S754_infinity s.
Proof.
  intros Hc Hk. unfold binary_round_aux, shr_fexp.
  rewrite Zdigits2_mul_pow2 by lia.
  assert (En1 : fexp prec emax (Zdigits2 (Z.pos m) + k + e) - e = k).
  { replace (Zdigits2 (Z.pos m) + k + e) with (Zdigits2 (Z.pos m) + (e + k)) by lia.
    lia. }
  rewrite En1.
  assert (Hshr : shr (shr_record_of_loc (Z.pos m * 2 ^ k) loc_Exact) e k
                 = ({| shr_m := Z.pos m; shr_r := false; shr_s := false |}, e + k)).
  { destruct k as [|k|k]; [|simpl shr|lia].
    - simpl. do 2 f_equal; lia.
    - rewrite (iter_shr_1_exact prec emax) by lia. reflexivity. }
  rewrite Hshr. cbn [shr_m loc_of_shr_record round_nearest_even].
  rewrite Hc, Z.sub_diag. reflexivity.
Qed.

(** The exponent handed to the rounding of a product asks for no left
    shift. *)
Lemma SFmul_exponent mx ex my ey :
  bounded prec emax mx ex = true → bounded prec emax my ey = true →
  ex + ey ≤ fexp prec emax (Zdigits2 (Z.pos (mx * my)) + (ex + ey)).
Proof.
  intros Bx By.
  apply bounded_inv in Bx as (Hex & Hdx & Hcx).
  apply bounded_inv in By as (Hey & Hdy & Hcy).
  pose proof (Zdigits2_pos (Z.pos mx)) as Hpx.
  pose proof (Zdigits2_pos (Z.pos my)) as Hpy.
  pose proof (Zdigits2_mul (Z.pos mx) (Z.pos my)) as Hd.
  rewrite <- Pos2Z.inj_mul in Hd. fexp_lia.
Qed.

End Doubling.

(** ** The memory model: elementary facts *)

Section Memory.
Implicit Types (h : gmap Z cell) (A : MatrixXf) (a : Z) (v : spec_float).

Lemma bind_unfold {X Y} (f : X → M Y) (c : M X) h :
  (c ≫= f) h = match c h with Some (r, h') => f r h' | None => None end.
Proof. reflexivity. Qed.

Lemma load_Some a h v h' :
  load a h = Some (v, h') ↔ h !! a = Some (Val v) ∧ h' = h.
Proof.
  unfold load. split.
  - destruct (h !! a) as [[|w]|]; intros [=]. by subst.
  - intros [-> ->]. reflexivity.
Qed.

Lemma coeff_Some A row col h v h' :
  coeff A row col h = Some (v, h')
  ↔ in_bounds A row col = true ∧ h !! coeff_addr A row col = Some (Val v) ∧ h' = h.
Proof.
  unfold coeff. destruct (in_bounds A row col).
  - rewrite load_Some. tauto.
  - split; [done|]. by intros [[=] _].
Qed.

Lemma sample_Some h A x y v :
  sample h A x y = Some v
  ↔ in_bounds A y x = true ∧ h !! coeff_addr A y x = Some (Val v).
Proof.
  unfold sample. split.
  - destruct (coeff A y x h) as [[w h']|] eqn:E; [|done].
    intros [= ->]. apply coeff_Some in E. tauto.
  - intros [Hb Hv].
    assert (coeff A y x h = Some (v, h)) as -> by (apply coeff_Some; auto).
    reflexivity.
Qed.

Lemma coeff_sample A x y h :
  coeff A y x h = (λ v, (v, h)) <$> sample h A x y.
Proof.
  unfold sample. destruct (coeff A y x h) as [[w h']|] eqn:E; [|done].
  apply coeff_Some in E as (_ & _ & ->). reflexivity.
Qed.

Lemma store_Some a v h :
  is_Some (h !! a) → store a v h = Some ((), <[a := Val v]> h).
Proof. intros [w Hw]. unfold store. rewrite Hw. reflexivity. Qed.

End Memory.

(** What the kernel does to the memory, in one equation. *)
Lemma data_term_at_location_unfold W C x y Gx Gy a b c (h : gmap Z cell) :
  is_Some (h !! a) → is_Some (h !! b) → is_Some (h !! c) →
  data_term_at_location W C x y Gx Gy a b c h =
    live ← sample h W x y;
    canonical ← sample h C x y;
    gx ← sample h Gx x y;
    gy ← sample h Gy x y;
    let d := F32.sub live canonical in
    Some ((), <[c := Val (F32.mul (F32.mul (F32.lit 1 (-1)) d) d)]>
               (<[b := Val (F32.mul (F32.mul d gy) (F32.lit 10 0))]>
                 (<[a := Val (F32.mul (F32.mul d gx) (F32.lit 10 0))]> h))).
Proof.
  intros Ha Hb Hc. unfold data_term_at_location.
  rewrite bind_unfold, coeff_sample.
  destruct (sample h W x y) as [live|]; [simpl|done].
  rewrite bind_unfold, coeff_sample.
  destruct (sample h C x y) as [canonical|]; [simpl|done].
  rewrite bind_unfold, coeff_sample.
  destruct (sample h Gx x y) as [gx|]; [simpl|done].
  rewrite bind_unfold, coeff_sample.
  destruct (sample h Gy x y) as [gy|]; [simpl|done].
  rewrite bind_unfold, store_Some by done.
  rewrite bind_unfold, store_Some.
  2:{ destruct (decide (a = b)) as [->|?];
        [rewrite lookup_insert_eq|rewrite lookup_insert_ne]; eauto. }
  rewrite store_Some; [done|].
  rewrite !lookup_insert. repeat case_decide; eauto.
Qed.

(** A cell that holds no value is invisible to the coefficient reads. *)
Lemma sample_insert_Uninit (h : gmap Z cell) a A x y :
  h !! a = None → sample (<[a := Uninit]> h) A x y = sample h A x y.
Proof.
  intros Hfresh. unfold sample, coeff, load.
  destruct (in_bounds A y x); [|done].
  destruct (decide (a = coeff_addr A y x)) as [<-|Hne].
  - rewrite lookup_insert_eq, Hfresh. done.
  - rewrite lookup_insert_ne by done.
    destruct (h !! coeff_addr A y x) as [[|v]|]; done.
Qed.

Lemma fresh_unmapped (h : gmap Z cell) : h !! fresh (dom h) = None.
Proof. apply not_elem_of_dom, is_fresh. Qed.

(** What the adapter does, in one equation: the memory is given back as
    it was found. *)
Lemma py_data_term_at_location_unfold W C x y Gx Gy (h : gmap Z cell) :
  py_data_term_at_location W C x y Gx Gy h =
    live ← sample h W x y;
    canonical ← sample h C x y;
    gx ← sample h Gx x y;
    gy ← sample h Gy x y;
    let d := F32.sub live canonical in
    Some (([F32.mul (F32.mul d gx) (F32.lit 10 0);
            F32.mul (F32.mul d gy) (F32.lit 10 0)],
           F32.mul (F32.mul (F32.lit 1 (-1)) d) d), h).
Proof.
  unfold py_data_term_at_location.
  rewrite bind_unfold. unfold alloca at 1.
  set (a1 := fresh (dom h)). set (h1 := <[a1 := Uninit]> h).
  rewrite bind_unfold. unfold alloca at 1.
  set (a2 := fresh (dom h1)). set (h2 := <[a2 := Uninit]> h1).
  rewrite bind_unfold. unfold alloca at 1.
  set (a3 := fresh (dom h2)). set (h3 := <[a3 := Uninit]> h2).
  assert (H1 : h !! a1 = None) by apply fresh_unmapped.
  assert (H2 : h1 !! a2 = None) by apply fresh_unmapped.
  assert (H3 : h2 !! a3 = None) by apply fresh_unmapped.
  assert (N12 : a1 ≠ a2).
  { intros E. subst h1. rewrite <- E, lookup_insert_eq in H2. done. }
  assert (N23 : a2 ≠ a3).
  { intros E. subst h2. rewrite <- E, lookup_insert_eq in H3. done. }
  assert (N13 : a1 ≠ a3).
  { intros E. subst h2 h1. rewrite <- E, lookup_insert_ne, lookup_insert_eq in H3; done. }
  assert (H2' : h !! a2 = None).
  { subst h1. rewrite lookup_insert_ne in H2; done. }
  assert (H3' : h !! a3 = None).
  { subst h2 h1. rewrite !lookup_insert_ne in H3; done. }
  assert (Hs : ∀ A, sample h3 A x y = sample h A x y).
  { intros A. subst h3 h2 h1. rewrite !sample_insert_Uninit; done. }
  rewrite bind_unfold, data_term_at_location_unfold; cycle 1.
  { subst h3 h2 h1. rewrite !lookup_insert. repeat case_decide; eauto; done. }
  { subst h3 h2. rewrite !lookup_insert. repeat case_decide; eauto; done. }
  { subst h3. rewrite lookup_insert_eq; eauto. }
  rewrite !Hs.
  destruct (sample h W x y) as [live|]; [simpl|done].
  destruct (sample h C x y) as [canonical|]; [simpl|done].
  destruct (sample h Gx x y) as [gx|]; [simpl|done].
  destruct (sample h Gy x y) as [gy|]; [simpl|done].
  rewrite bind_unfold. unfold load at 1.
  rewrite (lookup_insert_ne _ a3 a1), (lookup_insert_ne _ a2 a1), lookup_insert_eq by done.
  rewrite bind_unfold. unfold load at 1.
  rewrite (lookup_insert_ne _ a3 a2), lookup_insert_eq by done.
  rewrite bind_unfold. simpl.
  rewrite bind_unfold. unfold load at 1. rewrite lookup_insert_eq.
  unfold release. rewrite !bind_unfold. unfold mret, M_ret.
  do 2 f_equal. apply map_eq. intros k. subst h3 h2 h1.
  rewrite !lookup_delete, !lookup_insert.
  repeat case_decide; subst; done.
Qed.

(** The three slots after a call with distinct live slots. *)
Lemma outputs_of_call_unfold W C x y Gx Gy a b c (h : gmap Z cell) :
  NoDup [a; b; c] →
  is_Some (h !! a) → is_Some (h !! b) → is_Some (h !! c) →
  outputs_of_call W C x y Gx Gy a b c h =
    live ← sample h W x y;
    canonical ← sample h C x y;
    gx ← sample h Gx x y;
    gy ← sample h Gy x y;
    let d := F32.sub live canonical in
    Some (F32.mul (F32.mul d gx) (F32.lit 10 0),
          F32.mul (F32.mul d gy) (F32.lit 10 0),
          F32.mul (F32.mul (F32.lit 1 (-1)) d) d).
Proof.
  intros Hnd Ha Hb Hc. unfold outputs_of_call.
  rewrite data_term_at_location_unfold by done.
  destruct (sample h W x y) as [live|]; [simpl|done].
  destruct (sample h C x y) as [canonical|]; [simpl|done].
  destruct (sample h Gx x y) as [gx|]; [simpl|done].
  destruct (sample h Gy x y) as [gy|]; [simpl|done].
  apply NoDup_cons in Hnd as [Hab Hnd]. apply NoDup_cons in Hnd as [Hbc _].
  apply not_elem_of_cons in Hab as [Hab Hac].
  apply not_elem_of_cons in Hac as [Hac _].
  apply not_elem_of_cons in Hbc as [Hbc _].
  rewrite (lookup_insert_ne _ c a), (lookup_insert_ne _ b a), lookup_insert_eq by done.
  rewrite (lookup_insert_ne _ c b), lookup_insert_eq by done.
  rewrite lookup_insert_eq. reflexivity.
Qed.


(** ** binary32: the constants and the instances of the rounding facts *)

Lemma F32_prec_pos : 0 < F32.prec.
Proof. reflexivity. Qed.

Lemma F32_prec_lt_emax : F32.prec < F32.emax.
Proof. reflexivity. Qed.

Lemma lit_ten : F32.lit 10 0 = S754_finite false 10485760 (-20).
Proof. reflexivity. Qed.

Lemma lit_half : F32.lit 1 (-1) = S754_finite false 8388608 (-24).
Proof. reflexivity. Qed.

Lemma lit_two : F32.lit 2 0 = S754_finite false 8388608 (-22).
Proof. reflexivity. Qed.

Lemma wf_finite_inv s m e :
  F32.wf (S754_finite s m e) →
  -149 ≤ e ≤ 104 ∧ Zdigits2 (Z.pos m) ≤ 24
  ∧ (Zdigits2 (Z.pos m) = 24 ∨ e = -149).
Proof.
  intros H. apply bounded_inv in H; [exact H|done..].
Qed.

(** Multiplying a normal number by a power of two held in a literal with
    mantissa [2^23] only moves the exponent. *)
Lemma mul_pow2_normal (c : Z) s m e :
  Zdigits2 (Z.pos m) = 24 → -149 ≤ e + c + 23 ≤ 104 →
  F32.mul (S754_finite false 8388608 c) (S754_finite s m e)
  = S754_finite s m (e + c + 23).
Proof.
  intros Hd He. unfold F32.mul. cbv beta iota delta [SFmul]. cbn [xorb].
  replace (Z.pos (8388608 * m)) with (Z.pos m * 2 ^ 23) by lia.
  rewrite (binary_round_aux_exact 24 128) by (done || unfold emin; lia).
  f_equal. lia.
Qed.

(** Doubling a finite number: the exponent moves up, to an infinity
    beyond the largest one; a subnormal number doubles its mantissa. *)
Lemma mul_two_finite s m e :
  F32.wf (S754_finite s m e) →
  F32.mul (F32.lit 2 0) (S754_finite s m e)
  = if Zdigits2 (Z.pos m) =? 24
    then if e + 1 <=? 104 then S754_finite s m (e + 1) else S754_infinity s
    else S754_finite s m~0 e.
Proof.
  intros W. pose proof (wf_finite_inv _ _ _ W) as (He & Hd & Hc).
  rewrite lit_two. unfold F32.mul. cbv beta iota delta [SFmul]. cbn [xorb].
  destruct (Z.eqb_spec (Zdigits2 (Z.pos m)) 24) as [E|E].
  - replace (Z.pos (8388608 * m)) with (Z.pos m * 2 ^ 23) by lia.
    rewrite (binary_round_aux_padded 24 128 ltac:(done) ltac:(done)) by (unfold fexp, emin; lia).
    replace (-22 + e + 23) with (e + 1) by lia. reflexivity.
  - replace (Z.pos (8388608 * m)) with (Z.pos m~0 * 2 ^ 22) by lia.
    rewrite (binary_round_aux_padded 24 128 ltac:(done) ltac:(done)).
    + replace (-22 + e + 22) with e by lia.
      destruct (Z.leb_spec e (128 - 24)); [done|lia].
    + replace (Zdigits2 (Z.pos m~0)) with (Zdigits2 (Z.pos m) + 1)
        by (cbn [Zdigits2 digits2_pos]; lia).
      unfold fexp, emin. lia.
    + lia.
Qed.

Lemma mul_half s m e :
  Zdigits2 (Z.pos m) = 24 → -148 ≤ e ≤ 105 →
  F32.mul (F32.lit 1 (-1)) (S754_finite s m e) = S754_finite s m (e - 1).
Proof.
  intros Hd He. rewrite lit_half, mul_pow2_normal by (done || lia). f_equal. lia.
Qed.

(** Above the subnormal range and below overflow, moving one operand of a
    product up by one exponent moves the rounded product up by one
    exponent. *)
Lemma mul_shift sx mx ex sy my ey ex' ey' :
  F32.wf (S754_finite sx mx ex) → F32.wf (S754_finite sy my ey) →
  ex' + ey' = ex + ey + 1 →
  -124 ≤ (Zdigits2 (Z.pos mx) + ex) + (Zdigits2 (Z.pos my) + ey) ≤ 126 →
  ∃ s m e,
    F32.mul (S754_finite sx mx ex) (S754_finite sy my ey) = S754_finite s m e
    ∧ F32.wf (S754_finite s m e)
    ∧ Zdigits2 (Z.pos m) = 24
    ∧ (Zdigits2 (Z.pos mx) + ex) + (Zdigits2 (Z.pos my) + ey) - 1 ≤ 24 + e
        ≤ (Zdigits2 (Z.pos mx) + ex) + (Zdigits2 (Z.pos my) + ey) + 1
    ∧ F32.mul (S754_finite sx mx ex') (S754_finite sy my ey')
      = S754_finite s m (e + 1).
Proof.
  intros Wx Wy Hsum Hrange.
  destruct (SFmul_finite_spec 24 128 ltac:(done) ltac:(done) sx mx ex sy my ey Wx Wy)
    as [HD Hspec].
  unfold F32.mul.
  destruct (SFmul 24 128 (S754_finite sx mx ex) (S754_finite sy my ey))
    as [s|s| |s m e] eqn:Emul; unfold emin in Hspec; [lia|lia|done|].
  destruct Hspec as (-> & Wm & Hmag).
  pose proof (wf_finite_inv false m e Wm) as (Hem & Hdm & Hcm).
  assert (Hd24 : Zdigits2 (Z.pos m) = 24) by lia.
  exists (xorb sx sy), m, e. split; [done|]. split; [done|]. split; [done|].
  split; [lia|].
  cbv beta iota delta [SFmul] in Emul |- *.
  replace (ex' + ey') with (ex + ey + 1) by lia.
  apply (binary_round_aux_double 24 128); [done|lia|unfold emin; lia|done|lia].
Qed.

(** ** The three formulas of the kernel, as binary32 expressions *)

(** The rounding of a doubled exact product is the double of the
    rounding, when the product lies in the normal range or is rounded
    exactly.  The doubled product comes with the exponent one higher or
    with the mantissa doubled. *)
Lemma round_doubled s (M : positive) E (M' : positive) E' :
  E ≤ fexp 24 128 (Zdigits2 (Z.pos M) + E) →
  (M' = M ∧ E' = E + 1 ∧ 24 ≤ Zdigits2 (Z.pos M)) ∨ (M' = M~0%positive ∧ E' = E) →
  (-125 ≤ Zdigits2 (Z.pos M) + E)
  ∨ (∃ s' m e, binary_round_aux 24 128 s (Z.pos M) E loc_Exact = S754_finite s' m e
               ∧ E ≤ e ∧ Z.pos M = Z.pos m * 2 ^ (e - E)) →
  binary_round_aux 24 128 s (Z.pos M') E' loc_Exact
  = F32.mul (F32.lit 2 0) (binary_round_aux 24 128 s (Z.pos M) E loc_Exact).
Proof.
  intros Hpre Hform Hsafe.
  pose proof (binary_round_aux_spec 24 128 ltac:(done) ltac:(done)
                s (Z.pos M) E loc_Exact ltac:(lia) Hpre) as Hspec.
  destruct Hsafe as [Hnormal|(s' & m & e & Er & Hle & HM)].
  - (* normal range *)
    assert (Hsucc : binary_round_aux 24 128 s (Z.pos M') E' loc_Exact
                    = binary_round_aux 24 128 s (Z.pos M) (E + 1) loc_Exact).
    { destruct Hform as [(-> & -> & _)|(-> & ->)]; [done|].
      change (Z.pos M~0) with (2 * Z.pos M).
      apply (binary_round_aux_double_mantissa 24 128); [lia|].
      unfold fexp, emin in *. lia. }
    rewrite Hsucc, (binary_round_aux_succ 24 128 ltac:(done)) by (done || unfold emin; lia).
    destruct (binary_round_aux 24 128 s (Z.pos M) E loc_Exact) as [s1|s1| |s1 m1 e1].
    + unfold emin in Hspec. lia.
    + rewrite lit_two. reflexivity.
    + done.
    + destruct Hspec as (-> & B1 & Hmag).
      rewrite mul_two_finite by done.
      pose proof (wf_finite_inv s m1 e1 B1) as (He1 & Hd1 & Hc1).
      assert (Zdigits2 (Z.pos m1) = 24) as -> by lia.
      reflexivity.
  - (* exact *)
    rewrite Er in Hspec |- *. destruct Hspec as (-> & B & Hmag).
    rewrite mul_two_finite by done.
    pose proof (wf_finite_inv s m e B) as (He & Hd & Hc).
    set (k := e - E) in *. assert (Hk : 0 ≤ k) by lia.
    assert (HdM : Zdigits2 (Z.pos M) = Zdigits2 (Z.pos m) + k).
    { rewrite HM, Zdigits2_mul_pow2 by lia. done. }
    assert (Hp2 : 0 < 2 ^ k) by (apply Z.pow_pos_nonneg; lia).
    destruct (Z.eqb_spec (Zdigits2 (Z.pos m)) 24) as [E24|E24].
    + assert (HM' : Z.pos M' = Z.pos m * 2 ^ (e + 1 - E')).
      { destruct Hform as [(-> & -> & _)|(-> & ->)].
        - rewrite HM. f_equal. f_equal. lia.
        - change (Z.pos M~0) with (2 * Z.pos M). rewrite HM.
          replace (e + 1 - E) with (k + 1) by lia.
          rewrite Z.pow_add_r by lia. change (2 ^ 1) with 2. lia. }
      rewrite HM', (binary_round_aux_padded 24 128 ltac:(done) ltac:(done)).
      * replace (E' + (e + 1 - E')) with (e + 1) by lia. reflexivity.
      * replace (E' + (e + 1 - E')) with (e + 1) by lia. unfold fexp, emin. lia.
      * destruct Hform as [(-> & -> & _)|(-> & ->)]; lia.
    + assert (HM' : Z.pos M' = Z.pos m~0 * 2 ^ (e - E') ∧ 0 ≤ e - E').
      { destruct Hform as [(-> & -> & Hd24)|(-> & ->)].
        - assert (1 ≤ k) by lia. split; [|lia].
          rewrite HM. change (Z.pos m~0) with (2 * Z.pos m).
          replace k with (1 + (e - (E + 1))) at 1 by lia.
          rewrite Z.pow_add_r by lia. change (2 ^ 1) with 2. lia.
        - split; [|lia]. change (Z.pos M~0) with (2 * Z.pos M).
          change (Z.pos m~0) with (2 * Z.pos m). rewrite HM. fold k. lia. }
      destruct HM' as [HM' Hk'].
      rewrite HM', (binary_round_aux_padded 24 128 ltac:(done) ltac:(done)).
      * replace (E' + (e - E')) with e by lia.
        destruct (Z.leb_spec e (128 - 24)); [done|lia].
      * replace (E' + (e - E')) with e by lia.
        replace (Zdigits2 (Z.pos m~0)) with (Zdigits2 (Z.pos m) + 1)
          by (cbn [Zdigits2 digits2_pos]; lia).
        unfold fexp, emin. lia.
      * done.
Qed.

Lemma mul_comm x y : F32.mul x y = F32.mul y x.
Proof.
  unfold F32.mul.
  destruct x as [sx|sx| |sx mx ex], y as [sy|sy| |sy my ey];
    cbv beta iota delta [SFmul]; try rewrite (xorb_comm sx sy); try reflexivity.
  by rewrite (Pos.mul_comm mx my), (Z.add_comm ex ey).
Qed.

Lemma product_safe_comm x y : F32.product_safe x y = F32.product_safe y x.
Proof.
  destruct x as [sx|sx| |sx mx ex], y as [sy|sy| |sy my ey]; try reflexivity.
  unfold F32.product_safe.
  by rewrite (mul_comm (S754_finite sx mx ex)), (Pos.mul_comm mx my), (Z.add_comm ex ey).
Qed.

(** Doubling the right operand of a product doubles the product. *)
Lemma mul_doubled_r sx mx ex sy my ey :
  F32.wf (S754_finite sx mx ex) → F32.wf (S754_finite sy my ey) →
  Zdigits2 (Z.pos my) + ey ≤ 127 →
  F32.product_safe (S754_finite sx mx ex) (S754_finite sy my ey) = true →
  F32.mul (S754_finite sx mx ex) (F32.mul (F32.lit 2 0) (S754_finite sy my ey))
  = F32.mul (F32.lit 2 0) (F32.mul (S754_finite sx mx ex) (S754_finite sy my ey)).
Proof.
  intros Wx Wy Hmag Hsafe.
  pose proof (wf_finite_inv _ _ _ Wy) as (Hey & Hdy & Hcy).
  pose proof (SFmul_exponent 24 128 ltac:(done) ltac:(done) mx ex my ey Wx Wy) as Hpre.
  pose proof (Zdigits2_mul (Z.pos mx) (Z.pos my) ltac:(lia) ltac:(lia)) as Hd.
  rewrite <- Pos2Z.inj_mul in Hd.
  assert (Hx1 : 1 ≤ Zdigits2 (Z.pos mx)).
  { pose proof (Zdigits2_pos (Z.pos mx)). lia. }
  assert (Hsafe' : (-125 ≤ Zdigits2 (Z.pos (mx * my)) + (ex + ey))
    ∨ (∃ s' m e,
         binary_round_aux 24 128 (xorb sx sy) (Z.pos (mx * my)) (ex + ey) loc_Exact
         = S754_finite s' m e
         ∧ ex + ey ≤ e ∧ Z.pos (mx * my) = Z.pos m * 2 ^ (e - (ex + ey)))).
  { unfold F32.product_safe in Hsafe. apply orb_true_iff in Hsafe as [H|H].
    - left. apply Z.leb_le in H. done.
    - right. unfold F32.mul in H. cbv beta iota delta [SFmul] in H.
      change F32.prec with 24 in H. change F32.emax with 128 in H.
      destruct (binary_round_aux 24 128 (xorb sx sy) (Z.pos (mx * my)) (ex + ey) loc_Exact)
        as [?|?| |s' m e]; try done.
      apply andb_true_iff in H as [H1%Z.leb_le H2%Z.eqb_eq]. by exists s', m, e. }
  rewrite mul_two_finite by done.
  change (F32.mul (S754_finite sx mx ex) (S754_finite sy my ey))
    with (binary_round_aux 24 128 (xorb sx sy) (Z.pos (mx * my)) (ex + ey) loc_Exact).
  destruct (Z.eqb_spec (Zdigits2 (Z.pos my)) 24) as [E24|E24].
  - destruct (Z.leb_spec (ey + 1) 104); [|lia].
    change (F32.mul (S754_finite sx mx ex) (S754_finite sy my (ey + 1)))
      with (binary_round_aux 24 128 (xorb sx sy) (Z.pos (mx * my)) (ex + (ey + 1)) loc_Exact).
    apply round_doubled; [done| |done].
    left. repeat split; lia.
  - change (F32.mul (S754_finite sx mx ex) (S754_finite sy my~0 ey))
      with (binary_round_aux 24 128 (xorb sx sy) (Z.pos (mx * my~0)) (ex + ey) loc_Exact).
    rewrite Pos.mul_xO_r.
    apply round_doubled; [done| |done].
    right. done.
Qed.

(** Doubling a product before its scaling by ten doubles the scaled
    product; where the doubling overflows, so does the scaling. *)
Lemma scaled_doubles P :
  F32.wf P → F32.product_safe P (F32.lit 10 0) = true →
  F32.mul (F32.mul (F32.lit 2 0) P) (F32.lit 10 0)
  = F32.mul (F32.lit 2 0) (F32.mul P (F32.lit 10 0)).
Proof.
  intros WP Hsafe. destruct P as [s|s| |s m e].
  - rewrite lit_ten, lit_two. by destruct s.
  - rewrite lit_ten, lit_two. by destruct s.
  - reflexivity.
  - pose proof (wf_finite_inv _ _ _ WP) as (He & Hd & Hc).
    destruct (Z.le_gt_cases (Zdigits2 (Z.pos m) + e) 127) as [Hm|Hm].
    + rewrite (mul_comm _ (F32.lit 10 0)), (mul_comm (S754_finite s m e)).
      rewrite product_safe_comm in Hsafe. rewrite lit_ten in Hsafe |- *.
      by apply mul_doubled_r.
    + rewrite mul_two_finite by done.
      assert (E24 : Zdigits2 (Z.pos m) = 24) by lia. rewrite E24.
      change (24 =? 24) with true. cbv beta iota.
      destruct (Z.leb_spec (e + 1) 104); [lia|].
      rewrite lit_ten.
      change (F32.mul (S754_finite s m e) (S754_finite false 10485760 (-20)))
        with (binary_round_aux 24 128 (xorb s false) (Z.pos (m * 10485760))
                               (e + -20) loc_Exact).
      pose proof (SFmul_exponent 24 128 ltac:(done) ltac:(done)
                    m e 10485760 (-20) WP eq_refl) as Hpre.
      pose proof (Zdigits2_mul (Z.pos m) 10485760 ltac:(lia) ltac:(lia)) as HD.
      change (Zdigits2 10485760) with 24 in HD.
      change (Z.pos m * 10485760) with (Z.pos (m * 10485760)) in HD.
      pose proof (binary_round_aux_spec 24 128 ltac:(done) ltac:(done)
                    (xorb s false) (Z.pos (m * 10485760)) (e + -20) loc_Exact
                    ltac:(lia) Hpre) as Hr.
      destruct (binary_round_aux 24 128 (xorb s false) (Z.pos (m * 10485760))
                                 (e + -20) loc_Exact) as [s'|s'| |s' m' e'].
      * unfold emin in Hr. lia.
      * destruct Hr as [-> _]. rewrite lit_two. by destruct s.
      * done.
      * destruct Hr as (_ & B & Hmag).
        pose proof (wf_finite_inv s' m' e' B) as (He' & Hd' & Hc').
        unfold emin in Hmag. lia.
Qed.

(** Doubling the gradient sample doubles the gradient component. *)
Lemma gradient_doubles d g :
  F32.doubling_safe d g = true →
  F32.mul (F32.mul d (F32.mul (F32.lit 2 0) g)) (F32.lit 10 0)
  = F32.mul (F32.lit 2 0) (F32.mul (F32.mul d g) (F32.lit 10 0)).
Proof.
  intros Hsafe. destruct g as [sg|sg| |sg mg eg].
  - rewrite lit_ten, lit_two. by destruct d as [sd|sd| |sd md ed], sg; try destruct sd.
  - rewrite lit_ten, lit_two. by destruct d as [sd|sd| |sd md ed], sg; try destruct sd.
  - by destruct d.
  - cbn [F32.doubling_safe] in Hsafe.
    apply andb_true_iff in Hsafe as [Wg Hsafe].
    pose proof (wf_finite_inv _ _ _ Wg) as (Heg & Hdg & Hcg).
    destruct d as [sd|sd| |sd md ed].
    + apply Z.leb_le in Hsafe. cbn [F32.mag] in Hsafe.
      rewrite mul_two_finite by done. rewrite lit_ten, lit_two.
      destruct (Zdigits2 (Z.pos mg) =? 24); [destruct (Z.leb_spec (eg + 1) 104)|].
      * by destruct sd, sg.
      * pose proof (Zdigits2_pos (Z.pos mg)). lia.
      * by destruct sd, sg.
    + rewrite mul_two_finite by done. rewrite lit_ten, lit_two.
      destruct (Zdigits2 (Z.pos mg) =? 24); [destruct (eg + 1 <=? 104)|];
        by destruct sd, sg.
    + reflexivity.
    + apply andb_true_iff in Hsafe as [Hsafe S2].
      apply andb_true_iff in Hsafe as [Hsafe S1].
      apply andb_true_iff in Hsafe as [Wd Hmag%Z.leb_le].
      cbn [F32.mag] in Hmag.
      rewrite mul_doubled_r by done.
      apply scaled_doubles; [|done].
      apply (SFmul_valid 24 128); done.
Qed.

(** The condition at work: a zero or a subnormal gradient sample is
    doubled safely, and so is a product that lands on a subnormal
    number exactly; the product 1.5 * 2^-149 is not. *)
Example doubling_safe_zero_sample :
  F32.doubling_safe (F32.lit 1 (-1)) (F32.lit 0 0) = true.
Proof. reflexivity. Qed.

Example doubling_safe_subnormal_sample :
  F32.doubling_safe (F32.lit 1 0) (F32.lit 3 (-149)) = true.
Proof. vm_compute. reflexivity. Qed.

Example doubling_safe_infinite_difference :
  F32.doubling_safe (S754_infinity false) (F32.lit 1 127) = true.
Proof. vm_compute. reflexivity. Qed.

Example doubling_safe_inexact_subnormal :
  F32.doubling_safe (F32.lit 3 (-100)) (F32.lit 1 (-50)) = false.
Proof. vm_compute. reflexivity. Qed.

(** The bound on the sample is needed as well: the double of [2^127] is
    an infinity, and its product with a zero difference is a NaN, where
    the double of the component is a zero. *)
Example gradient_doubles_overflow :
  F32.doubling_safe (S754_zero false) (F32.lit 1 127) = false
  ∧ F32.mul (F32.mul (S754_zero false) (F32.mul (F32.lit 2 0) (F32.lit 1 127)))
            (F32.lit 10 0) = S754_nan
  ∧ F32.mul (F32.lit 2 0)
            (F32.mul (F32.mul (S754_zero false) (F32.lit 1 127)) (F32.lit 10 0))
    = S754_zero false.
Proof. vm_compute. done. Qed.

Lemma finite_below_is_finite k x : F32.finite_below k x → F32.is_finite x = true.
Proof. by destruct x. Qed.

Lemma finite_below_ten : F32.finite_below 4 (F32.lit 10 0).
Proof. rewrite lit_ten. split; [reflexivity|]. change (24 + -20 ≤ 4). lia. Qed.

Lemma finite_below_half : F32.finite_below 0 (F32.lit 1 (-1)).
Proof. rewrite lit_half. split; [reflexivity|]. change (24 + -24 ≤ 0). lia. Qed.

(** Samples below [2^60] in magnitude keep every operation of the kernel
    away from overflow. *)
Lemma formulas_finite live canonical g :
  F32.finite_below 60 live → F32.finite_below 60 canonical →
  F32.finite_below 60 g →
  F32.is_finite (F32.mul (F32.mul (F32.sub live canonical) g) (F32.lit 10 0)) = true
  ∧ F32.is_finite (F32.mul (F32.mul (F32.lit 1 (-1)) (F32.sub live canonical))
                           (F32.sub live canonical)) = true.
Proof.
  intros Hl Hc Hg.
  assert (Hd : F32.finite_below 62 (F32.sub live canonical)).
  { apply (SFsub_finite_below 24 128 ltac:(done) ltac:(done) 60); done. }
  split.
  - apply (finite_below_is_finite (62 + 60 + 1 + 4 + 1)).
    apply (SFmul_finite_below 24 128); [done|done| |apply finite_below_ten|done].
    apply (SFmul_finite_below 24 128); done.
  - apply (finite_below_is_finite (0 + 62 + 1 + 62 + 1)).
    apply (SFmul_finite_below 24 128); [done|done| |done|done].
    apply (SFmul_finite_below 24 128); [done|done|apply finite_below_half|done|done].
Qed.



Lemma sub_wf x y : F32.wf x → F32.wf y → F32.wf (F32.sub x y).
Proof. apply (SFsub_valid 24 128); done. Qed.

Lemma wf_finite_intro s m e :
  Zdigits2 (Z.pos m) = 24 → -149 ≤ e ≤ 104 → F32.wf (S754_finite s m e).
Proof.
  intros Hd He. unfold F32.wf, valid_binary, bounded, canonical_mantissa.
  change (Z.pos (digits2_pos m)) with (Zdigits2 (Z.pos m)). rewrite Hd.
  apply andb_true_intro. split; [apply Z.eqb_eq|apply Z.leb_le].
  - unfold fexp, emin, F32.prec, F32.emax. lia.
  - unfold F32.prec, F32.emax. lia.
Qed.

(** The energy is evaluated as [(0.5 * d) * d].  For [2^-62 <= |d| < 2^63]
    this is also [0.5 * (d * d)]: halving is exact and the square stays
    in the normal range. *)
Lemma energy_square_first d :
  F32.wf d → -61 ≤ F32.mag d ≤ 63 →
  F32.mul (F32.mul (F32.lit 1 (-1)) d) d
  = F32.mul (F32.lit 1 (-1)) (F32.mul d d).
Proof.
  intros Wd Hmag.
  destruct d as [sd|sd| |s m e]; cbn [F32.mag] in Hmag;
    try (unfold emin, F32.prec, F32.emax in Hmag; lia).
  pose proof (wf_finite_inv _ _ _ Wd) as (He & Hd & Hc).
  assert (Hd24 : Zdigits2 (Z.pos m) = 24) by lia.
  rewrite (mul_half s m e) by (done || lia).
  destruct (mul_shift s m (e - 1) s m e e e) as (s' & m' & e' & E1 & W1 & Hd1 & Hm1 & E2);
    [apply wf_finite_intro; [done|lia]|done|lia|lia|].
  rewrite E1, E2, mul_half by (done || lia). f_equal. lia.
Qed.

(** Outside that range the order matters: at [d = 2^64] the energy is
    [2^127], while the square alone overflows. *)
Example energy_square_first_overflow :
  F32.mul (F32.mul (F32.lit 1 (-1)) (F32.lit 1 64)) (F32.lit 1 64) = F32.lit 1 127
  ∧ F32.mul (F32.lit 1 (-1)) (F32.mul (F32.lit 1 64) (F32.lit 1 64))
    = S754_infinity false.
Proof. split; reflexivity. Qed.

(** Equal finite samples: zero gradient for a finite slope, zero energy. *)
Lemma formulas_zero live canonical g :
  F32.eqb live canonical = true → F32.is_finite live = true →
  F32.is_finite g = true →
  F32.is_zero (F32.mul (F32.mul (F32.sub live canonical) g) (F32.lit 10 0)) = true
  ∧ F32.mul (F32.mul (F32.lit 1 (-1)) (F32.sub live canonical))
            (F32.sub live canonical) = S754_zero false.
Proof.
  intros Heq Hl Hg. unfold F32.sub.
  destruct (SFsub_eqb F32.prec F32.emax live canonical Heq) as [[s ->]|[s [-> _]]]; [|done].
  rewrite lit_ten, lit_half. split.
  - destruct g; done.
  - by destruct s.
Qed.

(** ** Calls on well-formed inputs *)

Lemma output_slots_inv (h : gmap Z cell) a b c :
  output_slots h a b c = true →
  NoDup [a; b; c] ∧ is_Some (h !! a) ∧ is_Some (h !! b) ∧ is_Some (h !! c).
Proof.
  unfold output_slots. rewrite !andb_true_iff, !bool_decide_eq_true. tauto.
Qed.

(** The outputs of a call in terms of the four samples. *)
Lemma outputs_of_call_samples (h : gmap Z cell) W C x y Gx Gy a b c
    live canonical gx gy :
  output_slots h a b c = true →
  sample h W x y = Some live → sample h C x y = Some canonical →
  sample h Gx x y = Some gx → sample h Gy x y = Some gy →
  outputs_of_call W C x y Gx Gy a b c h
  = Some (F32.mul (F32.mul (F32.sub live canonical) gx) (F32.lit 10 0),
          F32.mul (F32.mul (F32.sub live canonical) gy) (F32.lit 10 0),
          F32.mul (F32.mul (F32.lit 1 (-1)) (F32.sub live canonical))
                  (F32.sub live canonical)).
Proof.
  intros Hs HW HC HGx HGy.
  apply output_slots_inv in Hs as (Hnd & Ha & Hb & Hc).
  rewrite outputs_of_call_unfold by done.
  rewrite HW, HC, HGx, HGy. reflexivity.
Qed.

Lemma py_data_term_at_location_samples (h : gmap Z cell) W C x y Gx Gy
    live canonical gx gy :
  sample h W x y = Some live → sample h C x y = Some canonical →
  sample h Gx x y = Some gx → sample h Gy x y = Some gy →
  py_data_term_at_location W C x y Gx Gy h
  = Some (([F32.mul (F32.mul (F32.sub live canonical) gx) (F32.lit 10 0);
            F32.mul (F32.mul (F32.sub live canonical) gy) (F32.lit 10 0)],
           F32.mul (F32.mul (F32.lit 1 (-1)) (F32.sub live canonical))
                   (F32.sub live canonical)), h).
Proof.
  intros HW HC HGx HGy. rewrite py_data_term_at_location_unfold.
  rewrite HW, HC, HGx, HGy. reflexivity.
Qed.

(** At an in-bounds location of a stored field the sample is defined;
    at any other location it is not, and neither is the call. *)
Lemma sample_in_bounds (h : gmap Z cell) A x y :
  stored h A → in_bounds A y x = true → is_Some (sample h A x y).
Proof.
  intros Hst Hin. destruct (Hst y x Hin) as [v Hv].
  exists v. apply sample_Some. done.
Qed.

Lemma sample_out_of_bounds (h : gmap Z cell) A x y :
  in_bounds A y x = false → sample h A x y = None.
Proof. intros Hout. unfold sample, coeff. rewrite Hout. done. Qed.

Lemma call_defined (h : gmap Z cell) W C x y Gx Gy a b c :
  output_slots h a b c = true →
  stored h W → stored h C → stored h Gx → stored h Gy →
  in_bounds W y x = true → in_bounds C y x = true →
  in_bounds Gx y x = true → in_bounds Gy y x = true →
  is_Some (outputs_of_call W C x y Gx Gy a b c h).
Proof.
  intros Hs SW SC SGx SGy BW BC BGx BGy.
  destruct (sample_in_bounds h W x y SW BW) as [live HW].
  destruct (sample_in_bounds h C x y SC BC) as [canonical HC].
  destruct (sample_in_bounds h Gx x y SGx BGx) as [gx HGx].
  destruct (sample_in_bounds h Gy x y SGy BGy) as [gy HGy].
  rewrite (outputs_of_call_samples h W C x y Gx Gy a b c _ _ _ _ Hs HW HC HGx HGy).
  eauto.
Qed.

Lemma call_undefined (h : gmap Z cell) W C x y Gx Gy a b c :
  in_bounds W y x && in_bounds C y x && in_bounds Gx y x && in_bounds Gy y x
  = false →
  data_term_at_location W C x y Gx Gy a b c h = None.
Proof.
  intros Hout. unfold data_term_at_location.
  rewrite bind_unfold, coeff_sample.
  destruct (in_bounds W y x) eqn:BW;
    [|rewrite (sample_out_of_bounds h W x y BW); done].
  destruct (sample h W x y) as [live|]; [simpl|done].
  rewrite bind_unfold, coeff_sample.
  destruct (in_bounds C y x) eqn:BC;
    [|rewrite (sample_out_of_bounds h C x y BC); done].
  destruct (sample h C x y) as [canonical|]; [simpl|done].
  rewrite bind_unfold, coeff_sample.
  destruct (in_bounds Gx y x) eqn:BGx;
    [|rewrite (sample_out_of_bounds h Gx x y BGx); done].
  destruct (sample h Gx x y) as [gx|]; [simpl|done].
  rewrite bind_unfold, coeff_sample.
  destruct (in_bounds Gy y x) eqn:BGy; [done|].
  rewrite (sample_out_of_bounds h Gy x y BGy). done.
Qed.

(** ** The properties of the specification *)

(** C1.  At an in-bounds location whose four samples are [live],
    [canonical], [gx] and [gy], a call with three distinct output slots
    returns normally and leaves [(live - canonical) * gx * 10.0] in
    [data_gradient_x] and [(live - canonical) * gy * 10.0] in
    [data_gradient_y], each operation being one binary32 operation,
    taken left to right. *)
Theorem data_gradient_formula (h : gmap Z cell) W C x y Gx Gy a b c
    live canonical gx gy :
  output_slots h a b c = true →
  sample h W x y = Some live → sample h C x y = Some canonical →
  sample h Gx x y = Some gx → sample h Gy x y = Some gy →
  ∃ e,
    outputs_of_call W C x y Gx Gy a b c h
    = Some (F32.mul (F32.mul (F32.sub live canonical) gx) (F32.lit 10 0),
            F32.mul (F32.mul (F32.sub live canonical) gy) (F32.lit 10 0),
            e).
Proof.
  intros Hs HW HC HGx HGy. eexists.
  apply outputs_of_call_samples; done.
Qed.

Lemma data_gradient_formula_witness :
  ∃ e,
    outputs_of_call Scene.W Scene.C 1 0 Scene.Gx Scene.Gy 100 101 102
                    Scene.memory
    = Some (F32.mul (F32.mul (F32.sub (F32.lit 1 0) (F32.lit 1 (-1))) (F32.lit 2 0))
                    (F32.lit 10 0),
            F32.mul (F32.mul (F32.sub (F32.lit 1 0) (F32.lit 1 (-1))) (F32.lit (-1) 0))
                    (F32.lit 10 0),
            e).
Proof.
  apply (data_gradient_formula Scene.memory Scene.W Scene.C 1 0 Scene.Gx Scene.Gy
           100 101 102); vm_compute; reflexivity.
Defined.

(** C2.  In the same call the slot [local_energy_contribution] receives
    [0.5 * (live - canonical)^2], evaluated as the source writes it,
    [0.5 * difference * difference] from left to right in binary32.  For
    well-formed samples with [2^-62 <= |difference| < 2^63] that is also
    the value of [0.5 * (difference * difference)]. *)
Theorem local_energy_formula (h : gmap Z cell) W C x y Gx Gy a b c
    live canonical gx gy :
  output_slots h a b c = true →
  sample h W x y = Some live → sample h C x y = Some canonical →
  sample h Gx x y = Some gx → sample h Gy x y = Some gy →
  ∃ ox oy e,
    outputs_of_call W C x y Gx Gy a b c h = Some (ox, oy, e)
    ∧ e = F32.mul (F32.mul (F32.lit 1 (-1)) (F32.sub live canonical))
                  (F32.sub live canonical)
    ∧ (F32.wf live → F32.wf canonical →
       -61 ≤ F32.mag (F32.sub live canonical) ≤ 63 →
       e = F32.mul (F32.lit 1 (-1))
                   (F32.mul (F32.sub live canonical) (F32.sub live canonical))).
Proof.
  intros Hs HW HC HGx HGy. do 3 eexists.
  split; [apply outputs_of_call_samples; done|].
  split; [reflexivity|].
  intros Wl Wc Hmag. apply energy_square_first; [|done].
  apply sub_wf; done.
Qed.

Lemma local_energy_formula_witness :
  ∃ ox oy e,
    outputs_of_call Scene.W Scene.C 1 0 Scene.Gx Scene.Gy 100 101 102
                    Scene.memory = Some (ox, oy, e)
    ∧ e = F32.mul (F32.mul (F32.lit 1 (-1))
                           (F32.sub (F32.lit 1 0) (F32.lit 1 (-1))))
                  (F32.sub (F32.lit 1 0) (F32.lit 1 (-1)))
    ∧ (F32.wf (F32.lit 1 0) → F32.wf (F32.lit 1 (-1)) →
       -61 ≤ F32.mag (F32.sub (F32.lit 1 0) (F32.lit 1 (-1))) ≤ 63 →
       e = F32.mul (F32.lit 1 (-1))
                   (F32.mul (F32.sub (F32.lit 1 0) (F32.lit 1 (-1)))
                            (F32.sub (F32.lit 1 0) (F32.lit 1 (-1))))).
Proof.
  apply (local_energy_formula Scene.memory Scene.W Scene.C 1 0 Scene.Gx Scene.Gy
           100 101 102 _ _ (F32.lit 2 0) (F32.lit (-1) 0)); vm_compute; reflexivity.
Defined.

(** C3.  The adapter returns what a call of [data_term_at_location] on
    the same fields and location leaves in its three slots, as the pair
    of the vector [(data_gradient_x, data_gradient_y)] and the energy; it
    is undefined exactly when that call is, and it gives the memory back
    unchanged. *)
Theorem py_adapter_repackages (h : gmap Z cell) W C x y Gx Gy a b c :
  output_slots h a b c = true →
  py_data_term_at_location W C x y Gx Gy h
  = match outputs_of_call W C x y Gx Gy a b c h with
    | Some (gx, gy, e) => Some (([gx; gy], e), h)
    | None => None
    end.
Proof.
  intros Hs. apply output_slots_inv in Hs as (Hnd & Ha & Hb & Hc).
  rewrite py_data_term_at_location_unfold, outputs_of_call_unfold by done.
  destruct (sample h W x y) as [live|]; [simpl|done].
  destruct (sample h C x y) as [canonical|]; [simpl|done].
  destruct (sample h Gx x y) as [gx|]; [simpl|done].
  destruct (sample h Gy x y) as [gy|]; done.
Qed.

Lemma py_adapter_repackages_witness :
  py_data_term_at_location Scene.W Scene.C 1 0 Scene.Gx Scene.Gy Scene.memory
  = match outputs_of_call Scene.W Scene.C 1 0 Scene.Gx Scene.Gy 100 101 102
                          Scene.memory with
    | Some (gx, gy, e) => Some (([gx; gy], e), Scene.memory)
    | None => None
    end.
Proof.
  apply (py_adapter_repackages Scene.memory Scene.W Scene.C 1 0 Scene.Gx Scene.Gy
           100 101 102); vm_compute; reflexivity.
Defined.

(** C4, as the code has it.  When the live and the canonical sample are
    equal and finite, the energy is +0 and each gradient component is a
    zero, for every finite value of the two gradient samples. *)
Theorem equal_samples_zero_outputs (h : gmap Z cell) W C x y Gx Gy a b c
    live canonical gx gy :
  output_slots h a b c = true →
  sample h W x y = Some live → sample h C x y = Some canonical →
  sample h Gx x y = Some gx → sample h Gy x y = Some gy →
  F32.eqb live canonical = true → F32.is_finite live = true →
  F32.is_finite gx = true → F32.is_finite gy = true →
  ∃ ox oy,
    outputs_of_call W C x y Gx Gy a b c h = Some (ox, oy, S754_zero false)
    ∧ F32.is_zero ox = true ∧ F32.is_zero oy = true.
Proof.
  intros Hs HW HC HGx HGy Heq Hl Hfx Hfy.
  rewrite (outputs_of_call_samples h W C _ _ _ _ _ _ _ _ _ _ _ Hs HW HC HGx HGy).
  destruct (formulas_zero live canonical gx Heq Hl Hfx) as [Hx He].
  destruct (formulas_zero live canonical gy Heq Hl Hfy) as [Hy _].
  rewrite He. eauto.
Qed.

Lemma equal_samples_zero_outputs_witness :
  ∃ ox oy,
    outputs_of_call (Scene.cell_field 0) (Scene.cell_field 1) 0 0
                    (Scene.cell_field 2) (Scene.cell_field 3) 100 101 102
                    (Scene.point (F32.lit 1 0) (F32.lit 1 0) (F32.lit 2 0)
                                 (F32.lit (-1) 0))
    = Some (ox, oy, S754_zero false)
    ∧ F32.is_zero ox = true ∧ F32.is_zero oy = true.
Proof.
  apply (equal_samples_zero_outputs
           (Scene.point (F32.lit 1 0) (F32.lit 1 0) (F32.lit 2 0) (F32.lit (-1) 0))
           (Scene.cell_field 0) (Scene.cell_field 1) 0 0
           (Scene.cell_field 2) (Scene.cell_field 3) 100 101 102
           (F32.lit 1 0) (F32.lit 1 0) (F32.lit 2 0) (F32.lit (-1) 0));
    vm_compute; reflexivity.
Defined.

(** C4, as stated, fails: with equal samples 1.0 and the gradient sample
    +infinity the product 0 * infinity is a NaN, and so is the gradient
    component. *)
Lemma equal_samples_infinite_gradient :
  ¬ (∀ (h : gmap Z cell) W C x y Gx Gy a b c live canonical gx gy,
       output_slots h a b c = true →
       sample h W x y = Some live → sample h C x y = Some canonical →
       sample h Gx x y = Some gx → sample h Gy x y = Some gy →
       F32.wf live → F32.wf canonical → F32.wf gx → F32.wf gy →
       F32.eqb live canonical = true →
       ∃ ox oy e,
         outputs_of_call W C x y Gx Gy a b c h = Some (ox, oy, e)
         ∧ F32.is_zero ox = true ∧ F32.is_zero oy = true
         ∧ F32.is_zero e = true).
Proof.
  intros H.
  destruct (H (Scene.point (F32.lit 1 0) (F32.lit 1 0) (S754_infinity false)
                           (F32.lit (-1) 0))
              (Scene.cell_field 0) (Scene.cell_field 1) 0 0
              (Scene.cell_field 2) (Scene.cell_field 3) 100 101 102
              (F32.lit 1 0) (F32.lit 1 0) (S754_infinity false) (F32.lit (-1) 0))
    as (ox & oy & e & Hout & Hx & _); try (vm_compute; reflexivity).
  vm_compute in Hout. injection Hout as <- _ _. discriminate Hx.
Qed.

(** C5, as the code has it.  When the four samples are finite and below
    [2^60] in magnitude, the three outputs are finite. *)
Theorem bounded_samples_finite_outputs (h : gmap Z cell) W C x y Gx Gy a b c
    live canonical gx gy :
  output_slots h a b c = true →
  sample h W x y = Some live → sample h C x y = Some canonical →
  sample h Gx x y = Some gx → sample h Gy x y = Some gy →
  F32.finite_below 60 live → F32.finite_below 60 canonical →
  F32.finite_below 60 gx → F32.finite_below 60 gy →
  ∃ ox oy e,
    outputs_of_call W C x y Gx Gy a b c h = Some (ox, oy, e)
    ∧ F32.is_finite ox = true ∧ F32.is_finite oy = true
    ∧ F32.is_finite e = true.
Proof.
  intros Hs HW HC HGx HGy Hl Hc Hfx Hfy.
  rewrite (outputs_of_call_samples h W C _ _ _ _ _ _ _ _ _ _ _ Hs HW HC HGx HGy).
  destruct (formulas_finite live canonical gx Hl Hc Hfx) as [Hx He].
  destruct (formulas_finite live canonical gy Hl Hc Hfy) as [Hy _].
  eauto 10.
Qed.

Lemma bounded_samples_finite_outputs_witness :
  ∃ ox oy e,
    outputs_of_call Scene.W Scene.C 1 0 Scene.Gx Scene.Gy 100 101 102
                    Scene.memory = Some (ox, oy, e)
    ∧ F32.is_finite ox = true ∧ F32.is_finite oy = true
    ∧ F32.is_finite e = true.
Proof.
  apply (bounded_samples_finite_outputs
           Scene.memory Scene.W Scene.C 1 0 Scene.Gx Scene.Gy 100 101 102
           (F32.lit 1 0) (F32.lit 1 (-1)) (F32.lit 2 0) (F32.lit (-1) 0));
    try (vm_compute; reflexivity);
    (split; [reflexivity | vm_compute; discriminate]).
Defined.

(** C5, as stated, fails: the finite samples live = 2^100, canonical = 0
    and grad_x = 2^100 make the product overflow, and the gradient
    component and the energy are +infinity. *)
Lemma finite_samples_overflow :
  ¬ (∀ (h : gmap Z cell) W C x y Gx Gy a b c live canonical gx gy,
       output_slots h a b c = true →
       sample h W x y = Some live → sample h C x y = Some canonical →
       sample h Gx x y = Some gx → sample h Gy x y = Some gy →
       F32.wf live → F32.wf canonical → F32.wf gx → F32.wf gy →
       F32.is_finite live = true → F32.is_finite canonical = true →
       F32.is_finite gx = true → F32.is_finite gy = true →
       ∃ ox oy e,
         outputs_of_call W C x y Gx Gy a b c h = Some (ox, oy, e)
         ∧ F32.is_finite ox = true ∧ F32.is_finite oy = true
         ∧ F32.is_finite e = true).
Proof.
  intros H.
  destruct (H (Scene.point (F32.lit 1 100) (F32.lit 0 0) (F32.lit 1 100)
                           (F32.lit 1 0))
              (Scene.cell_field 0) (Scene.cell_field 1) 0 0
              (Scene.cell_field 2) (Scene.cell_field 3) 100 101 102
              (F32.lit 1 100) (F32.lit 0 0) (F32.lit 1 100) (F32.lit 1 0))
    as (ox & oy & e & Hout & Hx & _); try (vm_compute; reflexivity).
  vm_compute in Hout. injection Hout as <- _ _. discriminate Hx.
Qed.



(** C7, as the code has it.  Doubling the two gradient samples leaves the
    energy as it is, whatever the samples.  It doubles a gradient
    component (a NaN component staying a NaN) whenever the sample [g]
    and the difference [d] pass [F32.doubling_safe]: [g] is a zero, an
    infinity or a NaN; or [d] is an infinity or a NaN; or [g] is below
    [2^127] in magnitude and [d] is a zero; or [g] is below [2^127] and
    each of the products [d * g] and [(d * g) * 10] is at least
    [2^-126] in magnitude before its rounding or is rounded exactly. *)
Theorem doubled_gradient_doubles_outputs (h h2 : gmap Z cell)
    W C x y Gx Gy a b c live canonical gx gy :
  output_slots h a b c = true → output_slots h2 a b c = true →
  sample h W x y = Some live → sample h C x y = Some canonical →
  sample h Gx x y = Some gx → sample h Gy x y = Some gy →
  sample h2 W x y = Some live → sample h2 C x y = Some canonical →
  sample h2 Gx x y = Some (F32.mul (F32.lit 2 0) gx) →
  sample h2 Gy x y = Some (F32.mul (F32.lit 2 0) gy) →
  ∃ ox oy e ox2 oy2,
    outputs_of_call W C x y Gx Gy a b c h = Some (ox, oy, e)
    ∧ outputs_of_call W C x y Gx Gy a b c h2 = Some (ox2, oy2, e)
    ∧ (F32.doubling_safe (F32.sub live canonical) gx = true →
       ox2 = F32.mul (F32.lit 2 0) ox)
    ∧ (F32.doubling_safe (F32.sub live canonical) gy = true →
       oy2 = F32.mul (F32.lit 2 0) oy).
Proof.
  intros Hs Hs2 HW HC HGx HGy HW2 HC2 HGx2 HGy2.
  rewrite (outputs_of_call_samples h W C _ _ _ _ _ _ _ _ _ _ _ Hs HW HC HGx HGy).
  rewrite (outputs_of_call_samples h2 W C _ _ _ _ _ _ _ _ _ _ _ Hs2 HW2 HC2 HGx2 HGy2).
  eexists _, _, _, _, _. split; [reflexivity|]. split; [reflexivity|].
  split; apply gradient_doubles.
Qed.

Lemma doubled_gradient_doubles_outputs_witness :
  ∃ ox oy e,
    outputs_of_call (Scene.cell_field 0) (Scene.cell_field 1) 0 0
                    (Scene.cell_field 2) (Scene.cell_field 3) 100 101 102
                    (Scene.point (F32.lit 1 0) (F32.lit 0 0) (F32.lit 3 (-149))
                                 (F32.lit 0 0))
    = Some (ox, oy, e)
    ∧ outputs_of_call (Scene.cell_field 0) (Scene.cell_field 1) 0 0
                      (Scene.cell_field 2) (Scene.cell_field 3) 100 101 102
                      (Scene.point (F32.lit 1 0) (F32.lit 0 0) (F32.lit 6 (-149))
                                   (F32.lit 0 0))
      = Some (F32.mul (F32.lit 2 0) ox, F32.mul (F32.lit 2 0) oy, e).
Proof.
  destruct (doubled_gradient_doubles_outputs
              (Scene.point (F32.lit 1 0) (F32.lit 0 0) (F32.lit 3 (-149)) (F32.lit 0 0))
              (Scene.point (F32.lit 1 0) (F32.lit 0 0) (F32.lit 6 (-149)) (F32.lit 0 0))
              (Scene.cell_field 0) (Scene.cell_field 1) 0 0
              (Scene.cell_field 2) (Scene.cell_field 3) 100 101 102
              (F32.lit 1 0) (F32.lit 0 0) (F32.lit 3 (-149)) (F32.lit 0 0))
    as (ox & oy & e & ox2 & oy2 & Hout & Hout2 & Hx & Hy);
    try (vm_compute; reflexivity).
  exists ox, oy, e. split; [exact Hout|].
  rewrite Hout2, Hx, Hy by (vm_compute; reflexivity). reflexivity.
Defined.

(** C7, as stated, fails where a product underflows.  With the
    difference 3 * 2^-100 and the gradient sample 2^-50 the product
    1.5 * 2^-149 is rounded to 2 * 2^-149 and the component is
    20 * 2^-149; with the doubled sample 2^-49 the product 3 * 2^-149 is
    exact and the component is 30 * 2^-149, not 40 * 2^-149. *)
Lemma doubled_gradient_underflow :
  ¬ (∀ (h h2 : gmap Z cell) W C x y Gx Gy a b c live canonical gx gy,
       output_slots h a b c = true → output_slots h2 a b c = true →
       sample h W x y = Some live → sample h C x y = Some canonical →
       sample h Gx x y = Some gx → sample h Gy x y = Some gy →
       sample h2 W x y = Some live → sample h2 C x y = Some canonical →
       sample h2 Gx x y = Some (F32.mul (F32.lit 2 0) gx) →
       sample h2 Gy x y = Some (F32.mul (F32.lit 2 0) gy) →
       F32.wf live → F32.wf canonical → F32.wf gx → F32.wf gy →
       ∃ ox oy e ox2 oy2,
         outputs_of_call W C x y Gx Gy a b c h = Some (ox, oy, e)
         ∧ outputs_of_call W C x y Gx Gy a b c h2 = Some (ox2, oy2, e)
         ∧ F32.same_number ox2 (F32.mul (F32.lit 2 0) ox)
         ∧ F32.same_number oy2 (F32.mul (F32.lit 2 0) oy)).
Proof.
  intros H.
  destruct (H (Scene.point (F32.lit 3 (-100)) (F32.lit 0 0) (F32.lit 1 (-50))
                           (F32.lit 1 0))
              (Scene.point (F32.lit 3 (-100)) (F32.lit 0 0) (F32.lit 1 (-49))
                           (F32.lit 2 0))
              (Scene.cell_field 0) (Scene.cell_field 1) 0 0
              (Scene.cell_field 2) (Scene.cell_field 3) 100 101 102
              (F32.lit 3 (-100)) (F32.lit 0 0) (F32.lit 1 (-50)) (F32.lit 1 0))
    as (ox & oy & e & ox2 & oy2 & Hout & Hout2 & Hx & _);
    try (vm_compute; reflexivity).
  vm_compute in Hout, Hout2.
  injection Hout as <- _ _. injection Hout2 as <- _ _.
  vm_compute in Hx. destruct Hx as [Hx|[Hx _]]; discriminate Hx.
Qed.

(** C8.  With the samples live = 1.0, canonical = 0.5, grad_x = 2.0 and
    grad_y = -1.0 the call leaves 10.0, -5.0 and 0.125 in the slots, and
    the adapter returns the vector (10.0, -5.0) with the scalar 0.125. *)
Theorem concrete_scenario (h : gmap Z cell) W C x y Gx Gy a b c :
  output_slots h a b c = true →
  sample h W x y = Some (F32.lit 1 0) →
  sample h C x y = Some (F32.lit 1 (-1)) →
  sample h Gx x y = Some (F32.lit 2 0) →
  sample h Gy x y = Some (F32.lit (-1) 0) →
  outputs_of_call W C x y Gx Gy a b c h
  = Some (F32.lit 10 0, F32.lit (-5) 0, F32.lit 1 (-3))
  ∧ py_data_term_at_location W C x y Gx Gy h
    = Some (([F32.lit 10 0; F32.lit (-5) 0], F32.lit 1 (-3)), h).
Proof.
  intros Hs HW HC HGx HGy. split.
  - rewrite (outputs_of_call_samples h W C x y Gx Gy a b c _ _ _ _ Hs HW HC HGx HGy).
    reflexivity.
  - rewrite (py_data_term_at_location_samples h W C x y Gx Gy _ _ _ _ HW HC HGx HGy).
    reflexivity.
Qed.

Lemma concrete_scenario_witness :
  outputs_of_call Scene.W Scene.C 1 0 Scene.Gx Scene.Gy 100 101 102 Scene.memory
  = Some (F32.lit 10 0, F32.lit (-5) 0, F32.lit 1 (-3))
  ∧ py_data_term_at_location Scene.W Scene.C 1 0 Scene.Gx Scene.Gy Scene.memory
    = Some (([F32.lit 10 0; F32.lit (-5) 0], F32.lit 1 (-3)), Scene.memory).
Proof.
  apply (concrete_scenario Scene.memory Scene.W Scene.C 1 0 Scene.Gx Scene.Gy
           100 101 102); vm_compute; reflexivity.
Defined.

(** C9.  A call at an in-bounds location returns normally, allocates
    and frees nothing and changes no cell but the three output slots;
    when no slot lies in the storage of a field, every coefficient of
    that field reads as before; and the three outputs are the same in
    any memory in which the four fields hold the same coefficients,
    whatever the slots and the rest of the memory. *)
Theorem frame_and_purity (h : gmap Z cell) W C x y Gx Gy a b c
    live canonical gx gy :
  output_slots h a b c = true →
  sample h W x y = Some live → sample h C x y = Some canonical →
  sample h Gx x y = Some gx → sample h Gy x y = Some gy →
  ∃ h',
    data_term_at_location W C x y Gx Gy a b c h = Some ((), h')
    ∧ dom h' = dom h
    ∧ (∀ k, k ≠ a → k ≠ b → k ≠ c → h' !! k = h !! k)
    ∧ (∀ A, A ∈ [W; C; Gx; Gy] →
         ¬ in_storage A a → ¬ in_storage A b → ¬ in_storage A c →
         ∀ col row, sample h' A col row = sample h A col row)
    ∧ (∀ (h2 : gmap Z cell) a2 b2 c2,
         output_slots h2 a2 b2 c2 = true →
         (∀ A, A ∈ [W; C; Gx; Gy] →
            ∀ col row, sample h2 A col row = sample h A col row) →
         outputs_of_call W C x y Gx Gy a2 b2 c2 h2
         = outputs_of_call W C x y Gx Gy a b c h).
Proof.
  intros Hs HW HC HGx HGy.
  pose proof Hs as (Hnd & Ha & Hb & Hc)%output_slots_inv.
  eexists. split.
  { rewrite data_term_at_location_unfold by done.
    rewrite HW, HC, HGx, HGy. reflexivity. }
  split.
  { rewrite !dom_insert_lookup_L; [done|done|..].
    - rewrite lookup_insert. case_decide; eauto.
    - rewrite !lookup_insert. repeat case_decide; eauto. }
  split.
  { intros k Hka Hkb Hkc. rewrite !lookup_insert_ne by done. done. }
  split.
  { intros A _ HAa HAb HAc col row. unfold sample, coeff, load.
    destruct (in_bounds A row col) eqn:Hin; [|done].
    assert (Hst : in_storage A (coeff_addr A row col)) by (by exists row, col).
    rewrite !lookup_insert_ne by (intros ->; done).
    by destruct (h !! coeff_addr A row col) as [[|v]|]. }
  intros h2 a2 b2 c2 Hs2 Hsame.
  rewrite (outputs_of_call_samples h _ _ _ _ _ _ _ _ _ _ _ _ _ Hs HW HC HGx HGy).
  apply outputs_of_call_samples; [done|rewrite Hsame..]; try done;
    repeat constructor.
Qed.

Lemma frame_and_purity_witness :
  ∃ h',
    data_term_at_location Scene.W Scene.C 1 0 Scene.Gx Scene.Gy 100 101 102
                          Scene.memory = Some ((), h')
    ∧ dom h' = dom Scene.memory
    ∧ (∀ k, k ≠ 100 → k ≠ 101 → k ≠ 102 → h' !! k = Scene.memory !! k)
    ∧ (∀ A, A ∈ [Scene.W; Scene.C; Scene.Gx; Scene.Gy] →
         ¬ in_storage A 100 → ¬ in_storage A 101 → ¬ in_storage A 102 →
         ∀ col row, sample h' A col row = sample Scene.memory A col row)
    ∧ (∀ (h2 : gmap Z cell) a2 b2 c2,
         output_slots h2 a2 b2 c2 = true →
         (∀ A, A ∈ [Scene.W; Scene.C; Scene.Gx; Scene.Gy] →
            ∀ col row, sample h2 A col row = sample Scene.memory A col row) →
         outputs_of_call Scene.W Scene.C 1 0 Scene.Gx Scene.Gy a2 b2 c2 h2
         = outputs_of_call Scene.W Scene.C 1 0 Scene.Gx Scene.Gy 100 101 102
                           Scene.memory).
Proof.
  apply (frame_and_purity Scene.memory Scene.W Scene.C 1 0 Scene.Gx Scene.Gy
           100 101 102 (F32.lit 1 0) (F32.lit 1 (-1)) (F32.lit 2 0)
           (F32.lit (-1) 0)); vm_compute; reflexivity.
Defined.

(** C10.  Two calls, on any memories, fields (of any shapes) and
    locations, that sample the same four values leave the same three
    outputs, and so do the two calls of the adapter: the result depends
    on the four sampled scalars only. *)
Theorem depends_only_on_samples
    (h1 : gmap Z cell) W1 C1 x1 y1 Gx1 Gy1 a1 b1 c1
    (h2 : gmap Z cell) W2 C2 x2 y2 Gx2 Gy2 a2 b2 c2
    live canonical gx gy :
  output_slots h1 a1 b1 c1 = true → output_slots h2 a2 b2 c2 = true →
  sample h1 W1 x1 y1 = Some live → sample h2 W2 x2 y2 = Some live →
  sample h1 C1 x1 y1 = Some canonical → sample h2 C2 x2 y2 = Some canonical →
  sample h1 Gx1 x1 y1 = Some gx → sample h2 Gx2 x2 y2 = Some gx →
  sample h1 Gy1 x1 y1 = Some gy → sample h2 Gy2 x2 y2 = Some gy →
  is_Some (outputs_of_call W1 C1 x1 y1 Gx1 Gy1 a1 b1 c1 h1)
  ∧ outputs_of_call W1 C1 x1 y1 Gx1 Gy1 a1 b1 c1 h1
    = outputs_of_call W2 C2 x2 y2 Gx2 Gy2 a2 b2 c2 h2
  ∧ is_Some (py_data_term_at_location W1 C1 x1 y1 Gx1 Gy1 h1)
  ∧ fst <$> py_data_term_at_location W1 C1 x1 y1 Gx1 Gy1 h1
    = fst <$> py_data_term_at_location W2 C2 x2 y2 Gx2 Gy2 h2.
Proof.
  intros Hs1 Hs2 HW1 HW2 HC1 HC2 HGx1 HGx2 HGy1 HGy2.
  rewrite (outputs_of_call_samples h1 _ _ _ _ _ _ _ _ _ _ _ _ _ Hs1 HW1 HC1 HGx1 HGy1).
  rewrite (outputs_of_call_samples h2 _ _ _ _ _ _ _ _ _ _ _ _ _ Hs2 HW2 HC2 HGx2 HGy2).
  rewrite (py_data_term_at_location_samples h1 _ _ _ _ _ _ _ _ _ _ HW1 HC1 HGx1 HGy1).
  rewrite (py_data_term_at_location_samples h2 _ _ _ _ _ _ _ _ _ _ HW2 HC2 HGx2 HGy2).
  eauto.
Qed.

Lemma depends_only_on_samples_witness :
  is_Some (outputs_of_call Scene.W Scene.C 1 0 Scene.Gx Scene.Gy 100 101 102
                           Scene.memory)
  ∧ outputs_of_call Scene.W Scene.C 1 0 Scene.Gx Scene.Gy 100 101 102
                    Scene.memory
    = outputs_of_call (Scene.row_field 20) (Scene.row_field 30) 1 0
                      (Scene.row_field 40) (Scene.row_field 50) 9 7 8
                      Scene.memory'
  ∧ is_Some (py_data_term_at_location Scene.W Scene.C 1 0 Scene.Gx Scene.Gy
                                      Scene.memory)
  ∧ fst <$> py_data_term_at_location Scene.W Scene.C 1 0 Scene.Gx Scene.Gy
                                     Scene.memory
    = fst <$> py_data_term_at_location (Scene.row_field 20) (Scene.row_field 30)
                1 0 (Scene.row_field 40) (Scene.row_field 50) Scene.memory'.
Proof.
  apply (depends_only_on_samples
           Scene.memory Scene.W Scene.C 1 0 Scene.Gx Scene.Gy 100 101 102
           Scene.memory' (Scene.row_field 20) (Scene.row_field 30) 1 0
           (Scene.row_field 40) (Scene.row_field 50) 9 7 8
           (F32.lit 1 0) (F32.lit 1 (-1)) (F32.lit 2 0) (F32.lit (-1) 0));
    vm_compute; reflexivity.
Defined.

(** ** Further properties of the kernel and of the adapter *)

Lemma readable_sample (h : gmap Z cell) A x y :
  readable h A x y ↔ is_Some (sample h A x y).
Proof.
  unfold readable. split.
  - intros [Hin [v Hv]]. exists v. by apply sample_Some.
  - intros [v Hv]. apply sample_Some in Hv as [Hin Hv]. eauto.
Qed.

(** X1.  The precondition of the kernel, exactly: the call returns
    normally if and only if the location can be read in each of the four
    fields, each within its own bounds (the fields need not have one
    shape), and each of the three output references names an existing
    [float].  Nothing else is required: the slots may coincide and may
    lie inside a field. *)
Theorem kernel_defined_iff (h : gmap Z cell) W C x y Gx Gy a b c :
  is_Some (data_term_at_location W C x y Gx Gy a b c h)
  ↔ (readable h W x y ∧ readable h C x y
     ∧ readable h Gx x y ∧ readable h Gy x y)
    ∧ is_Some (h !! a) ∧ is_Some (h !! b) ∧ is_Some (h !! c).
Proof.
  rewrite !readable_sample. split.
  - intros [r Hr]. unfold data_term_at_location in Hr.
    rewrite bind_unfold, coeff_sample in Hr.
    destruct (sample h W x y) as [live|]; [simpl in Hr|done].
    rewrite bind_unfold, coeff_sample in Hr.
    destruct (sample h C x y) as [canonical|]; [simpl in Hr|done].
    rewrite bind_unfold, coeff_sample in Hr.
    destruct (sample h Gx x y) as [gx|]; [simpl in Hr|done].
    rewrite bind_unfold, coeff_sample in Hr.
    destruct (sample h Gy x y) as [gy|]; [simpl in Hr|done].
    rewrite bind_unfold in Hr. unfold store at 1 in Hr.
    destruct (h !! a) as [va|] eqn:Ea; [|done].
    rewrite bind_unfold in Hr. unfold store at 1 in Hr.
    rewrite lookup_insert in Hr.
    assert (Hb : is_Some (h !! b)).
    { case_decide; [subst; eauto|]. destruct (h !! b); [eauto|done]. }
    assert (Hc : is_Some (h !! c)).
    { destruct Hb as [vb Eb].
      destruct (decide (a = b)); [|rewrite Eb in Hr]; unfold store in Hr;
        rewrite !lookup_insert in Hr; repeat case_decide; subst; eauto;
        destruct (h !! c); eauto; done. }
    eauto 10.
  - intros [([live HW] & [canonical HC] & [gx HGx] & [gy HGy]) (Ha & Hb & Hc)].
    rewrite data_term_at_location_unfold by done.
    rewrite HW, HC, HGx, HGy. eauto.
Qed.

(** X2.  The adapter returns normally if and only if the location can be
    read in each of the four fields; it needs no slot of the caller.
    Whenever it returns, the memory is exactly as before the call: its
    three locals are gone and no other cell has changed. *)
Theorem adapter_defined_iff (h : gmap Z cell) W C x y Gx Gy :
  (is_Some (py_data_term_at_location W C x y Gx Gy h)
   ↔ readable h W x y ∧ readable h C x y
     ∧ readable h Gx x y ∧ readable h Gy x y)
  ∧ (∀ r h', py_data_term_at_location W C x y Gx Gy h = Some (r, h') → h' = h).
Proof.
  rewrite !readable_sample, py_data_term_at_location_unfold.
  destruct (sample h W x y) as [live|]; simpl.
  2:{ split; [|done]. split; [by intros [? ?]|by intros ([? ?] & _)]. }
  destruct (sample h C x y) as [canonical|]; simpl.
  2:{ split; [|done]. split; [by intros [? ?]|by intros (_ & [? ?] & _)]. }
  destruct (sample h Gx x y) as [gx|]; simpl.
  2:{ split; [|done]. split; [by intros [? ?]|by intros (_ & _ & [? ?] & _)]. }
  destruct (sample h Gy x y) as [gy|]; simpl.
  2:{ split; [|done]. split; [by intros [? ?]|by intros (_ & _ & _ & [? ?])]. }
  split; [split; eauto 10|]. by intros r h' [= _ <-].
Qed.

(** X3.  The samples are read before anything is written.  When the slot
    for [data_gradient_x] is the very cell of the live field at the
    location, the three outputs are still computed from the value the
    cell held before the call, and after the call the field holds the
    gradient component at that location. *)
Theorem aliased_slot_overwrites_field (h : gmap Z cell) W C x y Gx Gy a b c
    live canonical gx gy :
  output_slots h a b c = true →
  a = coeff_addr W y x →
  sample h W x y = Some live → sample h C x y = Some canonical →
  sample h Gx x y = Some gx → sample h Gy x y = Some gy →
  ∃ h',
    data_term_at_location W C x y Gx Gy a b c h = Some ((), h')
    ∧ sample h' W x y
      = Some (F32.mul (F32.mul (F32.sub live canonical) gx) (F32.lit 10 0))
    ∧ outputs_of_call W C x y Gx Gy a b c h
      = Some (F32.mul (F32.mul (F32.sub live canonical) gx) (F32.lit 10 0),
              F32.mul (F32.mul (F32.sub live canonical) gy) (F32.lit 10 0),
              F32.mul (F32.mul (F32.lit 1 (-1)) (F32.sub live canonical))
                      (F32.sub live canonical)).
Proof.
  intros Hs -> HW HC HGx HGy.
  pose proof Hs as (Hnd & Ha & Hb & Hc)%output_slots_inv.
  eexists. split.
  { rewrite data_term_at_location_unfold by done.
    rewrite HW, HC, HGx, HGy. reflexivity. }
  split; [|apply outputs_of_call_samples; done].
  apply sample_Some in HW as [Hin _]. apply sample_Some. split; [done|].
  apply NoDup_cons in Hnd as [Hab Hnd]. apply not_elem_of_cons in Hab as [Hab Hac].
  apply not_elem_of_cons in Hac as [Hac _].
  rewrite (lookup_insert_ne _ c), (lookup_insert_ne _ b), lookup_insert_eq by done.
  reflexivity.
Qed.

Lemma aliased_slot_overwrites_field_witness :
  ∃ h',
    data_term_at_location Scene.W Scene.C 1 0 Scene.Gx Scene.Gy 2 101 102
                          Scene.memory = Some ((), h')
    ∧ sample h' Scene.W 1 0
      = Some (F32.mul (F32.mul (F32.sub (F32.lit 1 0) (F32.lit 1 (-1)))
                               (F32.lit 2 0)) (F32.lit 10 0))
    ∧ outputs_of_call Scene.W Scene.C 1 0 Scene.Gx Scene.Gy 2 101 102
                      Scene.memory
      = Some (F32.mul (F32.mul (F32.sub (F32.lit 1 0) (F32.lit 1 (-1)))
                               (F32.lit 2 0)) (F32.lit 10 0),
              F32.mul (F32.mul (F32.sub (F32.lit 1 0) (F32.lit 1 (-1)))
                               (F32.lit (-1) 0)) (F32.lit 10 0),
              F32.mul (F32.mul (F32.lit 1 (-1))
                               (F32.sub (F32.lit 1 0) (F32.lit 1 (-1))))
                      (F32.sub (F32.lit 1 0) (F32.lit 1 (-1)))).
Proof.
  apply (aliased_slot_overwrites_field
           Scene.memory Scene.W Scene.C 1 0 Scene.Gx Scene.Gy 2 101 102
           (F32.lit 1 0) (F32.lit 1 (-1)) (F32.lit 2 0) (F32.lit (-1) 0));
    vm_compute; reflexivity.
Defined.

(** X4.  The three results are written in the order [data_gradient_x],
    [data_gradient_y], [local_energy_contribution], and a shared slot
    keeps the last one: the energy slot always holds the energy, the
    slot of [data_gradient_y] holds its component unless it is the
    energy slot, and the slot of [data_gradient_x] holds its component
    unless it is one of the other two. *)
Theorem last_write_wins (h : gmap Z cell) W C x y Gx Gy a b c
    live canonical gx gy :
  is_Some (h !! a) → is_Some (h !! b) → is_Some (h !! c) →
  sample h W x y = Some live → sample h C x y = Some canonical →
  sample h Gx x y = Some gx → sample h Gy x y = Some gy →
  ∃ h',
    data_term_at_location W C x y Gx Gy a b c h = Some ((), h')
    ∧ h' !! c = Some (Val (F32.mul (F32.mul (F32.lit 1 (-1))
                                            (F32.sub live canonical))
                                   (F32.sub live canonical)))
    ∧ (b ≠ c →
       h' !! b = Some (Val (F32.mul (F32.mul (F32.sub live canonical) gy)
                                    (F32.lit 10 0))))
    ∧ (a ≠ b → a ≠ c →
       h' !! a = Some (Val (F32.mul (F32.mul (F32.sub live canonical) gx)
                                    (F32.lit 10 0)))).
Proof.
  intros Ha Hb Hc HW HC HGx HGy. eexists. split.
  { rewrite data_term_at_location_unfold by done.
    rewrite HW, HC, HGx, HGy. reflexivity. }
  split; [by rewrite lookup_insert_eq|]. split.
  - intros Hbc. by rewrite lookup_insert_ne, lookup_insert_eq.
  - intros Hab Hac.
    by rewrite (lookup_insert_ne _ c), (lookup_insert_ne _ b), lookup_insert_eq.
Qed.

Lemma last_write_wins_witness :
  ∃ h',
    data_term_at_location Scene.W Scene.C 1 0 Scene.Gx Scene.Gy 100 100 102
                          Scene.memory = Some ((), h')
    ∧ h' !! 102 = Some (Val (F32.mul (F32.mul (F32.lit 1 (-1))
                                (F32.sub (F32.lit 1 0) (F32.lit 1 (-1))))
                              (F32.sub (F32.lit 1 0) (F32.lit 1 (-1)))))
    ∧ (100 ≠ 102 →
       h' !! 100 = Some (Val (F32.mul (F32.mul (F32.sub (F32.lit 1 0)
                                                        (F32.lit 1 (-1)))
                                               (F32.lit (-1) 0))
                                      (F32.lit 10 0))))
    ∧ (100 ≠ 100 → 100 ≠ 102 →
       h' !! 100 = Some (Val (F32.mul (F32.mul (F32.sub (F32.lit 1 0)
                                                        (F32.lit 1 (-1)))
                                               (F32.lit 2 0))
                                      (F32.lit 10 0)))).
Proof.
  apply (last_write_wins Scene.memory Scene.W Scene.C 1 0 Scene.Gx Scene.Gy
           100 100 102 (F32.lit 1 0) (F32.lit 1 (-1)) (F32.lit 2 0)
           (F32.lit (-1) 0)); vm_compute; eauto.
Defined.

Lemma sample_insert_ne (h : gmap Z cell) k v A x y :
  k ≠ coeff_addr A y x → sample (<[k := v]> h) A x y = sample h A x y.
Proof.
  intros Hne. unfold sample, coeff, load.
  destruct (in_bounds A y x); [|done].
  rewrite lookup_insert_ne by done.
  by destruct (h !! coeff_addr A y x) as [[|w]|].
Qed.

Lemma slots_off_samples_inv W C x y Gx Gy a b c A :
  slots_off_samples W C x y Gx Gy a b c = true →
  A ∈ [W; C; Gx; Gy] →
  a ≠ coeff_addr A y x ∧ b ≠ coeff_addr A y x ∧ c ≠ coeff_addr A y x.
Proof.
  unfold slots_off_samples. rewrite forallb_forall. intros Hall HA.
  specialize (Hall A). rewrite <- list_elem_of_In in Hall.
  specialize (Hall HA). apply negb_true_iff, bool_decide_eq_false in Hall.
  rewrite !not_elem_of_cons in Hall. destruct Hall as (? & ? & ? & _). auto.
Qed.

(** X5.  Calling the kernel a second time with the same arguments changes
    nothing, as long as no output slot is one of the four sampled cells:
    two calls in a row leave the memory that one call leaves. *)
Theorem second_call_changes_nothing (h : gmap Z cell) W C x y Gx Gy a b c
    live canonical gx gy :
  is_Some (h !! a) → is_Some (h !! b) → is_Some (h !! c) →
  slots_off_samples W C x y Gx Gy a b c = true →
  sample h W x y = Some live → sample h C x y = Some canonical →
  sample h Gx x y = Some gx → sample h Gy x y = Some gy →
  is_Some (data_term_at_location W C x y Gx Gy a b c h)
  ∧ (data_term_at_location W C x y Gx Gy a b c;;
     data_term_at_location W C x y Gx Gy a b c) h
    = data_term_at_location W C x y Gx Gy a b c h.
Proof.
  intros Ha Hb Hc Hoff HW HC HGx HGy.
  assert (Hs : ∀ A va vb vc, A ∈ [W; C; Gx; Gy] →
            sample (<[c := vc]> (<[b := vb]> (<[a := va]> h))) A x y
            = sample h A x y).
  { intros A va vb vc HA.
    destruct (slots_off_samples_inv _ _ _ _ _ _ _ _ _ A Hoff HA) as (Na & Nb & Nc).
    by rewrite !sample_insert_ne. }
  rewrite bind_unfold.
  rewrite (data_term_at_location_unfold W C x y Gx Gy a b c h) by done.
  rewrite HW, HC, HGx, HGy. simpl. split; [eauto|].
  rewrite data_term_at_location_unfold.
  2-4: rewrite !lookup_insert; repeat case_decide; eauto.
  rewrite !Hs by repeat constructor.
  rewrite HW, HC, HGx, HGy. simpl. do 2 f_equal.
  apply map_eq. intros k. rewrite !lookup_insert. by repeat case_decide.
Qed.

Lemma second_call_changes_nothing_witness :
  is_Some (data_term_at_location Scene.W Scene.C 1 0 Scene.Gx Scene.Gy
                                 100 101 102 Scene.memory)
  ∧ (data_term_at_location Scene.W Scene.C 1 0 Scene.Gx Scene.Gy 100 101 102;;
     data_term_at_location Scene.W Scene.C 1 0 Scene.Gx Scene.Gy 100 101 102)
      Scene.memory
    = data_term_at_location Scene.W Scene.C 1 0 Scene.Gx Scene.Gy 100 101 102
                            Scene.memory.
Proof.
  apply (second_call_changes_nothing
           Scene.memory Scene.W Scene.C 1 0 Scene.Gx Scene.Gy 100 101 102
           (F32.lit 1 0) (F32.lit 1 (-1)) (F32.lit 2 0) (F32.lit (-1) 0));
    vm_compute; eauto.
Defined.

Lemma negation_of_opp x : negation_of x (F32.opp x).
Proof. by destruct x. Qed.

(** X6.  Negating the two gradient samples leaves the energy as it is.
    A gradient component that is not a NaN is negated exactly: its sign
    bit flips and nothing else changes, zeros and infinities included.
    A component that is a NaN stays a NaN; a NaN has neither sign nor
    payload here, so nothing is said of its bits. *)
Theorem negated_gradient_negates_outputs (h h2 : gmap Z cell)
    W C x y Gx Gy a b c live canonical gx gy :
  output_slots h a b c = true → output_slots h2 a b c = true →
  sample h W x y = Some live → sample h C x y = Some canonical →
  sample h Gx x y = Some gx → sample h Gy x y = Some gy →
  sample h2 W x y = Some live → sample h2 C x y = Some canonical →
  sample h2 Gx x y = Some (F32.opp gx) → sample h2 Gy x y = Some (F32.opp gy) →
  ∃ ox oy e ox2 oy2,
    outputs_of_call W C x y Gx Gy a b c h = Some (ox, oy, e)
    ∧ outputs_of_call W C x y Gx Gy a b c h2 = Some (ox2, oy2, e)
    ∧ negation_of ox ox2 ∧ negation_of oy oy2.
Proof.
  intros Hs Hs2 HW HC HGx HGy HW2 HC2 HGx2 HGy2.
  rewrite (outputs_of_call_samples h W C _ _ _ _ _ _ _ _ _ _ _ Hs HW HC HGx HGy).
  rewrite (outputs_of_call_samples h2 W C _ _ _ _ _ _ _ _ _ _ _ Hs2 HW2 HC2 HGx2 HGy2).
  unfold F32.mul, F32.opp. rewrite !SFmul_opp_r, !SFmul_opp_l.
  eexists _, _, _, _, _. split; [reflexivity|]. split; [reflexivity|].
  split; apply negation_of_opp.
Qed.

Lemma negated_gradient_negates_outputs_witness :
  outputs_of_call (Scene.cell_field 0) (Scene.cell_field 1) 0 0
                  (Scene.cell_field 2) (Scene.cell_field 3) 100 101 102
                  (Scene.point (F32.lit 1 0) (F32.lit 1 (-1)) (F32.lit 2 0)
                               (F32.lit 0 0))
  = Some (F32.lit 10 0, S754_zero false, F32.lit 1 (-3))
  ∧ outputs_of_call (Scene.cell_field 0) (Scene.cell_field 1) 0 0
                    (Scene.cell_field 2) (Scene.cell_field 3) 100 101 102
                    (Scene.point (F32.lit 1 0) (F32.lit 1 (-1)) (F32.lit (-2) 0)
                                 (S754_zero true))
    = Some (F32.lit (-10) 0, S754_zero true, F32.lit 1 (-3)).
Proof.
  destruct (negated_gradient_negates_outputs
              (Scene.point (F32.lit 1 0) (F32.lit 1 (-1)) (F32.lit 2 0) (F32.lit 0 0))
              (Scene.point (F32.lit 1 0) (F32.lit 1 (-1)) (F32.lit (-2) 0)
                           (S754_zero true))
              (Scene.cell_field 0) (Scene.cell_field 1) 0 0
              (Scene.cell_field 2) (Scene.cell_field 3) 100 101 102
              (F32.lit 1 0) (F32.lit 1 (-1)) (F32.lit 2 0) (F32.lit 0 0))
    as (ox & oy & e & ox2 & oy2 & Hout & Hout2 & Hx & Hy);
    try (vm_compute; reflexivity).
  rewrite Hout, Hout2. vm_compute in Hout. injection Hout as <- <- <-.
  cbn [negation_of] in Hx, Hy. subst ox2 oy2. split; vm_compute; reflexivity.
Defined.

Lemma binary_round_aux_sign_bit prec emax s m e l :
  sign_bit (binary_round_aux prec emax s m e l) = Some s
  ∨ sign_bit (binary_round_aux prec emax s m e l) = None.
Proof.
  unfold binary_round_aux.
  destruct (shr_fexp prec emax m e l) as [mrs' e'].
  destruct (shr_fexp prec emax _ e' loc_Exact) as [mrs'' e''].
  destruct (shr_m mrs''); simpl; auto.
  destruct (e'' <=? emax - prec); auto.
Qed.

(** The sign of a product is the exclusive or of the signs. *)
Lemma mul_sign_bit x y s :
  sign_bit (F32.mul x y) = Some s →
  ∃ sx sy, sign_bit x = Some sx ∧ sign_bit y = Some sy ∧ s = xorb sx sy.
Proof.
  destruct x as [sx|sx| |sx mx ex], y as [sy|sy| |sy my ey]; simpl; try done;
    try (intros [= <-]; eauto).
  destruct (binary_round_aux_sign_bit F32.prec F32.emax (xorb sx sy)
              (Z.pos (mx * my)) (ex + ey) loc_Exact) as [H|H];
    rewrite H; [intros [= <-]; eauto|done].
Qed.

Lemma energy_sign d :
  sign_bit (F32.mul (F32.mul (F32.lit 1 (-1)) d) d) ≠ Some true.
Proof.
  intros H. apply mul_sign_bit in H as (s1 & sd & H1 & Hd & Hx).
  apply mul_sign_bit in H1 as (sh & sd' & Hh & Hd' & ->).
  rewrite lit_half in Hh. injection Hh as <-.
  rewrite Hd in Hd'. injection Hd' as <-. by destruct sd.
Qed.

(** X7.  The energy is never negative: whatever the four samples, the
    energy slot receives a NaN or a datum with a clear sign bit (+0, a
    positive number or +infinity), never -0 either. *)
Theorem energy_never_negative (h : gmap Z cell) W C x y Gx Gy a b c
    live canonical gx gy :
  output_slots h a b c = true →
  sample h W x y = Some live → sample h C x y = Some canonical →
  sample h Gx x y = Some gx → sample h Gy x y = Some gy →
  ∃ ox oy e,
    outputs_of_call W C x y Gx Gy a b c h = Some (ox, oy, e)
    ∧ sign_bit e ≠ Some true.
Proof.
  intros Hs HW HC HGx HGy.
  rewrite (outputs_of_call_samples h W C _ _ _ _ _ _ _ _ _ _ _ Hs HW HC HGx HGy).
  do 3 eexists. split; [reflexivity|]. apply energy_sign.
Qed.

Lemma energy_never_negative_witness :
  ∃ ox oy e,
    outputs_of_call Scene.C Scene.W 1 0 Scene.Gx Scene.Gy 100 101 102
                    Scene.memory = Some (ox, oy, e)
    ∧ sign_bit e ≠ Some true.
Proof.
  apply (energy_never_negative
           Scene.memory Scene.C Scene.W 1 0 Scene.Gx Scene.Gy 100 101 102
           (F32.lit 1 (-1)) (F32.lit 1 0) (F32.lit 2 0) (F32.lit (-1) 0));
    vm_compute; reflexivity.
Defined.

(** X8.  Magnitudes.  For [-75 <= k <= 60], samples that are finite and
    below [2^k] in magnitude give well-formed finite outputs, the two
    gradient components below [2^(2k+8)] and the energy below
    [2^(2k+6)]. *)
Theorem outputs_magnitude (k : Z) (h : gmap Z cell) W C x y Gx Gy a b c
    live canonical gx gy :
  -75 ≤ k ≤ 60 →
  output_slots h a b c = true →
  sample h W x y = Some live → sample h C x y = Some canonical →
  sample h Gx x y = Some gx → sample h Gy x y = Some gy →
  F32.finite_below k live → F32.finite_below k canonical →
  F32.finite_below k gx → F32.finite_below k gy →
  ∃ ox oy e,
    outputs_of_call W C x y Gx Gy a b c h = Some (ox, oy, e)
    ∧ F32.finite_below (2 * k + 8) ox ∧ F32.finite_below (2 * k + 8) oy
    ∧ F32.finite_below (2 * k + 6) e.
Proof.
  intros Hk Hs HW HC HGx HGy Hl Hc Hfx Hfy.
  rewrite (outputs_of_call_samples h W C _ _ _ _ _ _ _ _ _ _ _ Hs HW HC HGx HGy).
  assert (Hd : F32.finite_below (k + 2) (F32.sub live canonical)).
  { apply (SFsub_finite_below 24 128 ltac:(done) ltac:(done) k);
      [done|done|unfold emin; lia|lia]. }
  assert (Hg : ∀ g, F32.finite_below k g →
             F32.finite_below (2 * k + 8)
               (F32.mul (F32.mul (F32.sub live canonical) g) (F32.lit 10 0))).
  { intros g Hfg.
    replace (2 * k + 8) with ((k + 2 + k + 1) + 4 + 1) by lia.
    apply (SFmul_finite_below 24 128);
      [done|done| |apply finite_below_ten|unfold emin; lia].
    apply (SFmul_finite_below 24 128); [done|done|done|done|unfold emin; lia]. }
  do 3 eexists. split; [reflexivity|].
  split; [by apply Hg|]. split; [by apply Hg|].
  replace (2 * k + 6) with ((0 + (k + 2) + 1) + (k + 2) + 1) by lia.
  apply (SFmul_finite_below 24 128); [done|done| |done|unfold emin; lia].
  apply (SFmul_finite_below 24 128);
    [done|done|apply finite_below_half|done|unfold emin; lia].
Qed.

Lemma outputs_magnitude_witness :
  ∃ ox oy e,
    outputs_of_call Scene.W Scene.C 1 0 Scene.Gx Scene.Gy 100 101 102
                    Scene.memory = Some (ox, oy, e)
    ∧ F32.finite_below (2 * 2 + 8) ox ∧ F32.finite_below (2 * 2 + 8) oy
    ∧ F32.finite_below (2 * 2 + 6) e.
Proof.
  apply (outputs_magnitude 2
           Scene.memory Scene.W Scene.C 1 0 Scene.Gx Scene.Gy 100 101 102
           (F32.lit 1 0) (F32.lit 1 (-1)) (F32.lit 2 0) (F32.lit (-1) 0));
    try lia; try (vm_compute; reflexivity);
    (split; [reflexivity | vm_compute; discriminate]).
Defined.

Lemma sub_nan x y : is_nan (F32.sub x y) = undefined_difference x y.
Proof.
  destruct x as [sx|sx| |sx mx ex], y as [sy|sy| |sy my ey]; try done;
    try (by destruct sx, sy).
  unfold undefined_difference. simpl orb.
  destruct (SFsub_finite 24 128 sx mx ex sy my ey) as (X & Y & _ & _ & _ & E).
  unfold F32.sub. change F32.prec with 24. change F32.emax with 128. rewrite E.
  pose proof (binary_normalize_spec 24 128 ltac:(done) ltac:(done)
                (cond_Zopp sx (Z.pos X) - cond_Zopp sy (Z.pos Y)) (Z.min ex ey)) as H.
  by destruct (binary_normalize 24 128 _ _ false).
Qed.

Lemma wf_half : F32.wf (F32.lit 1 (-1)).
Proof. reflexivity. Qed.

Lemma mul_finite_not_nan sx mx ex sy my ey :
  F32.wf (S754_finite sx mx ex) → F32.wf (S754_finite sy my ey) →
  is_nan (F32.mul (S754_finite sx mx ex) (S754_finite sy my ey)) = false.
Proof.
  intros Wx Wy.
  destruct (SFmul_finite_spec 24 128 ltac:(done) ltac:(done) sx mx ex sy my ey Wx Wy)
    as [_ H].
  unfold F32.mul. change F32.prec with 24. change F32.emax with 128.
  by destruct (SFmul 24 128 (S754_finite sx mx ex) (S754_finite sy my ey)).
Qed.

(** The energy is a NaN only for a NaN difference. *)
Lemma energy_nan d :
  F32.wf d →
  is_nan (F32.mul (F32.mul (F32.lit 1 (-1)) d) d) = is_nan d.
Proof.
  intros Wd. destruct d as [s|s| |s m e]; try (by destruct s); [done|].
  pose proof (mul_finite_not_nan false 8388608 (-24) s m e wf_half Wd) as H1.
  assert (W1 : F32.wf (F32.mul (S754_finite false 8388608 (-24))
                               (S754_finite s m e))).
  { apply (SFmul_valid 24 128); done. }
  rewrite lit_half.
  destruct (F32.mul (S754_finite false 8388608 (-24)) (S754_finite s m e))
    as [s1|s1| |s1 m1 e1]; [reflexivity|reflexivity|done|].
  apply mul_finite_not_nan; done.
Qed.

(** X9.  NaN.  For well-formed samples the energy is a NaN exactly when
    the live or the canonical sample is a NaN or both are the same
    infinity, and then both gradient components are NaNs as well; in
    particular finite samples never make the energy a NaN. *)
Theorem nan_energy_iff (h : gmap Z cell) W C x y Gx Gy a b c
    live canonical gx gy :
  output_slots h a b c = true →
  sample h W x y = Some live → sample h C x y = Some canonical →
  sample h Gx x y = Some gx → sample h Gy x y = Some gy →
  F32.wf live → F32.wf canonical →
  ∃ ox oy e,
    outputs_of_call W C x y Gx Gy a b c h = Some (ox, oy, e)
    ∧ is_nan e = undefined_difference live canonical
    ∧ (undefined_difference live canonical = true →
       is_nan ox = true ∧ is_nan oy = true).
Proof.
  intros Hs HW HC HGx HGy Wl Wc.
  rewrite (outputs_of_call_samples h W C _ _ _ _ _ _ _ _ _ _ _ Hs HW HC HGx HGy).
  do 3 eexists. split; [reflexivity|]. split.
  - rewrite energy_nan by (apply sub_wf; done). apply sub_nan.
  - rewrite <- sub_nan. intros Hd.
    destruct (F32.sub live canonical); done.
Qed.

Lemma nan_energy_iff_witness :
  ∃ ox oy e,
    outputs_of_call (Scene.cell_field 0) (Scene.cell_field 1) 0 0
                    (Scene.cell_field 2) (Scene.cell_field 3) 100 101 102
                    (Scene.point (S754_infinity false) (S754_infinity false)
                                 (F32.lit 2 0) (F32.lit (-1) 0))
    = Some (ox, oy, e)
    ∧ is_nan e = undefined_difference (S754_infinity false) (S754_infinity false)
    ∧ (undefined_difference (S754_infinity false) (S754_infinity false) = true →
       is_nan ox = true ∧ is_nan oy = true).
Proof.
  apply (nan_energy_iff
           (Scene.point (S754_infinity false) (S754_infinity false)
                        (F32.lit 2 0) (F32.lit (-1) 0))
           (Scene.cell_field 0) (Scene.cell_field 1) 0 0
           (Scene.cell_field 2) (Scene.cell_field 3) 100 101 102
           (S754_infinity false) (S754_infinity false)
           (F32.lit 2 0) (F32.lit (-1) 0));
    vm_compute; reflexivity.
Defined.

Lemma gradient_sign d g s :
  sign_bit (F32.mul (F32.mul d g) (F32.lit 10 0)) = Some s →
  ∃ sd sg, sign_bit d = Some sd ∧ sign_bit g = Some sg ∧ s = xorb sd sg.
Proof.
  intros H. apply mul_sign_bit in H as (s1 & st & H1 & Ht & ->).
  rewrite lit_ten in Ht. injection Ht as <-.
  apply mul_sign_bit in H1 as (sd & sg & Hd & Hg & ->).
  exists sd, sg. by rewrite xorb_false_r.
Qed.

(** X10.  Direction.  A gradient component that is not a NaN carries the
    sign of the difference times the sign of its gradient sample, also
    when the product underflows to a zero or overflows to an infinity:
    its sign bit is the exclusive or of the two sign bits. *)
Theorem gradient_sign_is_product_sign (h : gmap Z cell) W C x y Gx Gy a b c
    live canonical gx gy :
  output_slots h a b c = true →
  sample h W x y = Some live → sample h C x y = Some canonical →
  sample h Gx x y = Some gx → sample h Gy x y = Some gy →
  ∃ ox oy e,
    outputs_of_call W C x y Gx Gy a b c h = Some (ox, oy, e)
    ∧ (∀ s, sign_bit ox = Some s →
         ∃ sd sg, sign_bit (F32.sub live canonical) = Some sd
                  ∧ sign_bit gx = Some sg ∧ s = xorb sd sg)
    ∧ (∀ s, sign_bit oy = Some s →
         ∃ sd sg, sign_bit (F32.sub live canonical) = Some sd
                  ∧ sign_bit gy = Some sg ∧ s = xorb sd sg).
Proof.
  intros Hs HW HC HGx HGy.
  rewrite (outputs_of_call_samples h W C _ _ _ _ _ _ _ _ _ _ _ Hs HW HC HGx HGy).
  do 3 eexists. split; [reflexivity|]. split; intros s; apply gradient_sign.
Qed.

Lemma gradient_sign_is_product_sign_witness :
  ∃ ox oy e,
    outputs_of_call Scene.W Scene.C 1 0 Scene.Gx Scene.Gy 100 101 102
                    Scene.memory = Some (ox, oy, e)
    ∧ (∀ s, sign_bit ox = Some s →
         ∃ sd sg, sign_bit (F32.sub (F32.lit 1 0) (F32.lit 1 (-1))) = Some sd
                  ∧ sign_bit (F32.lit 2 0) = Some sg ∧ s = xorb sd sg)
    ∧ (∀ s, sign_bit oy = Some s →
         ∃ sd sg, sign_bit (F32.sub (F32.lit 1 0) (F32.lit 1 (-1))) = Some sd
                  ∧ sign_bit (F32.lit (-1) 0) = Some sg ∧ s = xorb sd sg).
Proof.
  apply (gradient_sign_is_product_sign
           Scene.memory Scene.W Scene.C 1 0 Scene.Gx Scene.Gy 100 101 102
           (F32.lit 1 0) (F32.lit 1 (-1)) (F32.lit 2 0) (F32.lit (-1) 0));
    vm_compute; reflexivity.
Defined.
